(** * rester-js: the RESTfulClient class, embedded and verified

    The development follows the one class of the library, [RESTfulClient]:
    its constructor, [getAuthorization], [request], the verb helpers
    [get], [post], [delete], [put], then [resolve] and [createURL].

    JavaScript strings are modelled by [string]: each character of the
    Rocq string stands for one UTF-16 code unit (so the model covers the
    strings whose code units are below 256; for ASCII text the two
    coincide).  Numbers are modelled on the integers, and the text of a
    number on the safe integers, where it is the plain decimal form: the
    theorems that speak of the text of a number carry [Js.safe].  The
    [async] methods are modelled by their sequential meaning: every [await] is
    the point where the awaited call's outcome becomes available.

    What the class takes from the platform is modelled after the
    standards, as far as the class uses it: the global replace of
    [String.prototype.replace] for the one pattern of [createURL],
    object literals, the spread syntax and [Object.keys] with the
    property order of ordinary objects, [JSON.stringify] (and
    [JSON.parse], to say what its text means), [URLSearchParams.append] and the serialisation of a URL.  The [URL]
    constructor, [fetch] and the functions the caller configures are
    left to an environment, and every call of them is recorded. *)

From Stdlib Require Import String Ascii List ZArith NArith Bool Lia.
From Stdlib Require Import DecimalString DecimalN.
Import ListNotations.

Local Open Scope list_scope.
Local Open Scope string_scope.

Set Warnings "-register-all".

(** ** Strings *)

Module Str.

(** The character class [[\\/]] of the pattern in [createURL]. *)
Definition is_sep (c : ascii) : bool :=
  (Ascii.eqb c "/" || Ascii.eqb c "\")%bool.

(** The character class [[^:]]. *)
Definition not_colon (c : ascii) : bool := negb (Ascii.eqb c ":").

Definition starts_with_sep (s : string) : bool :=
  match s with
  | String c _ => is_sep c
  | EmptyString => false
  end.

(** The rest of [s] after its longest prefix of separators: what is left
    once the greedy [[\\/]+] has consumed all it can. *)
Fixpoint drop_seps (s : string) : string :=
  match s with
  | String c t => if is_sep c then drop_seps t else s
  | EmptyString => EmptyString
  end.

(** [s.replace(/([^:])[\\/]+/g, '$1/')].

    The global replace scans [s] from the left.  At a character [c] it
    looks for a match: [c] is no colon and the next character is a slash
    or a backslash.  On a match it writes [c] and one forward slash and
    resumes after the whole run that [[\\/]+] consumed; otherwise it
    copies [c] and moves one character on.  [in_match] is set while the
    scan is still inside the run consumed by the last match. *)
Fixpoint replace_from (in_match : bool) (s : string) : string :=
  match s with
  | EmptyString => EmptyString
  | String c t =>
      if (in_match && is_sep c)%bool then replace_from true t
      else if (not_colon c && starts_with_sep t)%bool
           then String c (String "/" (replace_from true t))
           else String c (replace_from false t)
  end.

Definition replace_slashes (s : string) : string := replace_from false s.

(** A string of slashes and backslashes only. *)
Fixpoint all_seps (s : string) : bool :=
  match s with
  | EmptyString => true
  | String c t => (is_sep c && all_seps t)%bool
  end.

(** A string without a slash or a backslash. *)
Fixpoint no_seps (s : string) : bool :=
  match s with
  | EmptyString => true
  | String c t => (negb (is_sep c) && no_seps t)%bool
  end.

(** The characters of a string that are no slash and no backslash. *)
Fixpoint text_of (s : string) : string :=
  match s with
  | EmptyString => EmptyString
  | String c t => if is_sep c then text_of t else String c (text_of t)
  end.

(** A string in which the pattern finds nothing to change: after a
    character other than a colon, a slash or backslash is one forward
    slash and no second one follows. *)
Fixpoint settled (s : string) : bool :=
  match s with
  | EmptyString => true
  | String c t =>
      ((if (not_colon c && starts_with_sep t)%bool
        then match t with
             | String d t' => (Ascii.eqb d "/" && negb (starts_with_sep t'))%bool
             | EmptyString => false
             end
        else true)
       && settled t)%bool
  end.

End Str.

(** ** Values and objects *)

(** A [Response] of the fetch API, as far as the client looks at it: the
    object's identity and its numeric status code. *)
Record Response : Type := mkResponse { response_ref : nat; status : Z }.

(** The values that flow through the parameters typed [any]: [undefined],
    [null], booleans, numbers, strings, plain objects and responses.
    [VObj [(k1, v1); ...; (kn, vn)]] is the object written
    [{k1: v1, ..., kn: vn}]. *)
Inductive value : Type :=
| VUndefined
| VNull
| VBool (b : bool)
| VNum (n : Z)
| VStr (s : string)
| VObj (literal : list (string * value))
| VResponse (r : Response).

Module Js.

Definition dquote : ascii := "034"%char.

Definition string_of_N (n : N) : string := NilZero.string_of_uint (N.to_uint n).

(** [Number.isSafeInteger]: the integers that a number holds exactly and
    that Number::toString prints in plain decimal. *)
Definition safe_integer (n : Z) : bool := (Z.abs n <=? 9007199254740991)%Z.

(** Number::toString on the safe integers: the decimal digits, after a
    minus sign below zero.  (From 10^21 on a number prints in exponent
    form; the theorems about the text of a number carry [safe].) *)
Definition string_of_Z (n : Z) : string := NilZero.string_of_int (Z.to_int n).

(** A property key is an array index when it is the canonical decimal
    form of an integer in the range 0 .. 2^32 - 2: a string of digits
    that is what the number it denotes prints as. *)
Definition array_index (k : string) : option N :=
  match NilZero.uint_of_string k with
  | Some u =>
      let n := N.of_uint u in
      if (String.eqb (string_of_N n) k && (n <? 4294967295)%N)%bool then Some n else None
  | None => None
  end.

Section Properties.

Context {V : Type}.

(** The own enumerable string-keyed properties of an ordinary object, in
    the order [Object.keys], the spread syntax and [JSON.stringify]
    enumerate them. *)
Definition props : Type := list (string * V).

Fixpoint lookup (k : string) (o : props) : option V :=
  match o with
  | [] => None
  | (k', v) :: t => if String.eqb k k' then Some v else lookup k t
  end.

Definition has_key (k : string) (o : props) : bool :=
  match lookup k o with Some _ => true | None => false end.

Definition keys (o : props) : list string := map fst o.

(** Assigning an existing property: the key keeps its place. *)
Fixpoint update (k : string) (v : V) (o : props) : props :=
  match o with
  | [] => []
  | (k', v') :: t =>
      if String.eqb k k' then (k, v) :: t else (k', v') :: update k v t
  end.

(** Creating a property: array indices are enumerated first, in
    ascending numeric order, then the other keys in the order of their
    creation. *)
Fixpoint create (k : string) (v : V) (o : props) : props :=
  match o with
  | [] => [(k, v)]
  | (k', v') :: t =>
      match array_index k, array_index k' with
      | Some i, Some j =>
          if (i <? j)%N then (k, v) :: o else (k', v') :: create k v t
      | Some _, None => (k, v) :: o
      | None, _ => (k', v') :: create k v t
      end
  end.

(** Defining the data property [k] on an object. *)
Definition set_prop (k : string) (v : V) (o : props) : props :=
  if has_key k o then update k v o else create k v o.

(** Defining the properties of [l] one after the other on [target]. *)
Definition define_all (target : props) (l : list (string * V)) : props :=
  fold_left (fun o kv => set_prop (fst kv) (snd kv) o) l target.

(** The properties of the object literal [{k1: v1, ..., kn: vn}]. *)
Definition obj_literal (l : list (string * V)) : props := define_all [] l.

End Properties.

Arguments props V : clear implicits.

Definition obj : Type := props value.

Fixpoint string_props (i : N) (s : string) : list (string * value) :=
  match s with
  | EmptyString => []
  | String c t => (string_of_N i, VStr (String c EmptyString)) :: string_props (N.succ i) t
  end.

(** The own enumerable string-keyed properties of a value: those of an
    object, the indexed characters of a string, none for the rest. *)
Definition own_props (v : value) : obj :=
  match v with
  | VObj l => obj_literal l
  | VStr s => obj_literal (string_props 0 s)
  | _ => []
  end.

(** [Object.keys(v)], where it does not throw. *)
Definition Object_keys (v : value) : list string := keys (own_props v).

(** The spread [{...target, ...v}]: every own enumerable property of [v]
    is defined on the object under construction, in order. *)
Definition spread (target : obj) (v : value) : obj :=
  define_all target (own_props v).

(** Reading [v[k]] or [v?.k] where [k] is an own key of [v] or a name no
    built-in prototype defines (the source reads [query[key]] for the own
    keys of [query], and [headers]); [undefined] when absent, and also on
    [null] and [undefined] behind [?.]. *)
Definition member (v : value) (k : string) : value :=
  match lookup k (own_props v) with
  | Some x => x
  | None => VUndefined
  end.

(** A parameter default [p = d]. *)
Definition default_arg (v d : value) : value :=
  match v with VUndefined => d | _ => v end.

(** ToString, as [URLSearchParams.append] applies it to its arguments. *)
Definition to_string (v : value) : string :=
  match v with
  | VUndefined => "undefined"
  | VNull => "null"
  | VBool true => "true"
  | VBool false => "false"
  | VNum n => string_of_Z n
  | VStr s => s
  | VObj _ => "[object Object]"
  | VResponse _ => "[object Response]"
  end.

Definition hex_lower (n : N) : ascii :=
  if (n <? 10)%N then ascii_of_N (48 + n) else ascii_of_N (87 + n).

Definition hex_upper (n : N) : ascii :=
  if (n <? 10)%N then ascii_of_N (48 + n) else ascii_of_N (55 + n).

(** One code unit inside QuoteJSONString. *)
Definition quote_json_char (c : ascii) : string :=
  let n := N_of_ascii c in
  if (n =? 34)%N then String "\" (String dquote EmptyString)
  else if (n =? 92)%N then "\\"
  else if (n =? 8)%N then "\b"
  else if (n =? 9)%N then "\t"
  else if (n =? 10)%N then "\n"
  else if (n =? 12)%N then "\f"
  else if (n =? 13)%N then "\r"
  else if (n <? 32)%N
       then "\u00" ++ String (hex_lower (n / 16)) (String (hex_lower (n mod 16)) EmptyString)
       else String c EmptyString.

Fixpoint quote_json_body (s : string) : string :=
  match s with
  | EmptyString => EmptyString
  | String c t => quote_json_char c ++ quote_json_body t
  end.

(** QuoteJSONString: the string between double quotes, with the double
    quote, the backslash and the control characters escaped. *)
Definition quote_json (s : string) : string :=
  String dquote (quote_json_body s ++ String dquote EmptyString).

(** The members of a serialised object: a property whose value
    serialises to [undefined] is left out. *)
Fixpoint json_members (o : props (option string)) : list string :=
  match o with
  | [] => []
  | (k, Some j) :: t => (quote_json k ++ ":" ++ j) :: json_members t
  | (_, None) :: t => json_members t
  end.

(** SerializeJSONProperty, without replacer or indentation: [None] is
    the [undefined] that [JSON.stringify] answers for [undefined]. *)
Fixpoint json_serialize (v : value) : option string :=
  match v with
  | VUndefined => None
  | VNull => Some "null"
  | VBool true => Some "true"
  | VBool false => Some "false"
  | VNum n => Some (string_of_Z n)
  | VStr s => Some (quote_json s)
  | VObj l =>
      let fix each (l : list (string * value)) : list (string * option string) :=
        match l with
        | [] => []
        | (k, x) :: t => (k, json_serialize x) :: each t
        end in
      Some ("{" ++ String.concat "," (json_members (obj_literal (each l))) ++ "}")
  | VResponse _ => Some "{}"
  end.

(** [JSON.stringify(v)]. *)
Definition JSON_stringify (v : value) : value :=
  match json_serialize v with
  | Some s => VStr s
  | None => VUndefined
  end.

(** The numbers of a value, at any depth, are safe integers. *)
Fixpoint safe (v : value) : bool :=
  match v with
  | VNum n => safe_integer n
  | VObj l =>
      (fix all (l : list (string * value)) : bool :=
         match l with
         | [] => true
         | (_, x) :: t => (safe x && all t)%bool
         end) l
  | _ => true
  end.

(** *** Reading JSON text

    [JSON.parse], for the texts that denote a value of the embedding:
    no white space, no arrays, no fractions or exponents. *)

Definition is_digit (c : ascii) : bool :=
  let n := N_of_ascii c in ((48 <=? n) && (n <=? 57))%N%bool.

(** The longest prefix of digits, and the rest. *)
Fixpoint span_digits (s : string) : string * string :=
  match s with
  | EmptyString => (EmptyString, EmptyString)
  | String c t =>
      if is_digit c
      then let (d, rest) := span_digits t in (String c d, rest)
      else (EmptyString, s)
  end.

(** A text that does not go on with a digit. *)
Definition terminated (s : string) : bool :=
  match s with
  | String c _ => negb (is_digit c)
  | EmptyString => true
  end.

(** A JSON integer: an optional minus sign and digits without a
    superfluous leading zero. *)
Definition parse_number (s : string) : option (Z * string) :=
  let (negative, body) :=
    match s with
    | String c t => if Ascii.eqb c "-" then (true, t) else (false, s)
    | EmptyString => (false, s)
    end in
  let (digits, rest) := span_digits body in
  match NilZero.uint_of_string digits with
  | Some u =>
      let n := N.of_uint u in
      if String.eqb (string_of_N n) digits
      then Some (if negative then (- Z.of_N n)%Z else Z.of_N n, rest)
      else None
  | None => None
  end.

Definition hex_value (c : ascii) : option N :=
  let n := N_of_ascii c in
  if ((48 <=? n) && (n <=? 57))%N%bool then Some (n - 48)%N
  else if ((97 <=? n) && (n <=? 102))%N%bool then Some (n - 87)%N
  else if ((65 <=? n) && (n <=? 70))%N%bool then Some (n - 55)%N
  else None.

(** The character a two-character escape stands for. *)
Definition unescape (e : ascii) : option ascii :=
  let n := N_of_ascii e in
  if (n =? 34)%N then Some dquote
  else if (n =? 92)%N then Some "\"%char
  else if (n =? 47)%N then Some "/"%char
  else if (n =? 98)%N then Some "008"%char
  else if (n =? 116)%N then Some "009"%char
  else if (n =? 110)%N then Some "010"%char
  else if (n =? 102)%N then Some "012"%char
  else if (n =? 114)%N then Some "013"%char
  else None.

(** The code unit of [\uXXXX], when it is below 256. *)
Definition unicode_escape (h1 h2 h3 h4 : ascii) : option ascii :=
  match hex_value h1, hex_value h2, hex_value h3, hex_value h4 with
  | Some a, Some b, Some c, Some d =>
      if ((a =? 0) && (b =? 0))%N%bool then Some (ascii_of_N (16 * c + d)) else None
  | _, _, _, _ => None
  end.

Definition cons_char (c : ascii) (r : option (string * string)) : option (string * string) :=
  match r with
  | Some (x, rest) => Some (String c x, rest)
  | None => None
  end.

(** A JSON string after its opening double quote: the string it
    denotes, and the text after the closing double quote. *)
Fixpoint unquote_body (s : string) : option (string * string) :=
  match s with
  | EmptyString => None
  | String c t =>
      if Ascii.eqb c dquote then Some (EmptyString, t)
      else if Ascii.eqb c "\" then
        match t with
        | String e t' =>
            match unescape e with
            | Some x => cons_char x (unquote_body t')
            | None =>
                if Ascii.eqb e "u" then
                  match t' with
                  | String h1 (String h2 (String h3 (String h4 t''))) =>
                      match unicode_escape h1 h2 h3 h4 with
                      | Some x => cons_char x (unquote_body t'')
                      | None => None
                      end
                  | _ => None
                  end
                else None
            end
        | EmptyString => None
        end
      else if (N_of_ascii c <? 32)%N then None
      else cons_char c (unquote_body t)
  end.

Fixpoint strip_prefix (p s : string) : option string :=
  match p with
  | EmptyString => Some s
  | String a p' =>
      match s with
      | String b s' => if Ascii.eqb a b then strip_prefix p' s' else None
      | EmptyString => None
      end
  end.

(** A JSON value at the start of [s], and the text after it; [fuel]
    bounds the nesting and the number of members. *)
Fixpoint parse_value (fuel : nat) (s : string) {struct fuel} : option (value * string) :=
  match fuel with
  | O => None
  | S fuel' =>
      match s with
      | EmptyString => None
      | String c t =>
          if Ascii.eqb c dquote then
            match unquote_body t with
            | Some (x, rest) => Some (VStr x, rest)
            | None => None
            end
          else if Ascii.eqb c "{" then
            match t with
            | String c' rest' =>
                if Ascii.eqb c' "}" then Some (VObj [], rest')
                else match parse_members fuel' t with
                     | Some (ms, rest) => Some (VObj ms, rest)
                     | None => None
                     end
            | EmptyString => None
            end
          else
            match strip_prefix "null" s with
            | Some rest => Some (VNull, rest)
            | None =>
                match strip_prefix "true" s with
                | Some rest => Some (VBool true, rest)
                | None =>
                    match strip_prefix "false" s with
                    | Some rest => Some (VBool false, rest)
                    | None =>
                        match parse_number s with
                        | Some (n, rest) => Some (VNum n, rest)
                        | None => None
                        end
                    end
                end
            end
      end
  end

with parse_members (fuel : nat) (s : string) {struct fuel}
  : option (list (string * value) * string) :=
  match fuel with
  | O => None
  | S fuel' =>
      match s with
      | EmptyString => None
      | String c t =>
          if Ascii.eqb c dquote then
            match unquote_body t with
            | Some (k, String c1 t1) =>
                if Ascii.eqb c1 ":" then
                  match parse_value fuel' t1 with
                  | Some (x, String c2 t2) =>
                      if Ascii.eqb c2 "," then
                        match parse_members fuel' t2 with
                        | Some (ms, rest) => Some ((k, x) :: ms, rest)
                        | None => None
                        end
                      else if Ascii.eqb c2 "}" then Some ([(k, x)], t2)
                      else None
                  | _ => None
                  end
                else None
            | _ => None
            end
          else None
      end
  end.

(** [JSON.parse(s)] on the texts above: [None] is its SyntaxError, or a
    text with white space, an array, a fraction or an exponent.  An
    object is read as the literal of its members, so a repeated key
    takes its last value and array indices are enumerated first. *)
Definition JSON_parse (s : string) : option value :=
  match parse_value (S (String.length s)) s with
  | Some (v, EmptyString) => Some v
  | _ => None
  end.

(** The same keys with [f] of their values. *)
Definition map_values {A B : Type} (f : A -> B) (o : props A) : props B :=
  map (fun kv => (fst kv, f (snd kv))) o.

(** The entries whose value is defined. *)
Fixpoint keep_defined {V : Type} (o : props (option V)) : props V :=
  match o with
  | [] => []
  | (k, Some x) :: t => (k, x) :: keep_defined t
  | (_, None) :: t => keep_defined t
  end.

(** The data that the JSON text of a value holds: the value itself for
    [null], a boolean, a number or a string; for an object its own
    properties, each key once and in the order of enumeration, without
    those whose value is [undefined]; the empty object for a response;
    nothing for [undefined]. *)
Fixpoint json_data (v : value) : option value :=
  match v with
  | VUndefined => None
  | VObj l =>
      let fix each (l : list (string * value)) : list (string * option value) :=
        match l with
        | [] => []
        | (k, x) :: t => (k, json_data x) :: each t
        end in
      Some (VObj (keep_defined (obj_literal (each l))))
  | VResponse _ => Some (VObj [])
  | _ => Some v
  end.

(** The JSON text of a value reads back as its data, whatever text that
    does not go on with a digit follows it. *)
Definition reads_back (v : value) : Prop :=
  forall t, json_serialize v = Some t ->
  exists d, json_data v = Some d
            /\ forall fuel rest, terminated rest = true -> String.length t < fuel ->
                 parse_value fuel (t ++ rest) = Some (d, rest).

End Js.

Definition obj : Type := Js.obj.

(** ** URLs *)

(** A [URL] object as the client uses it: the serialised scheme,
    authority and path, the query and fragment of the URL record (absent
    when null), and the list of name-value pairs of its [searchParams]
    object. *)
Record URL : Type := mkURL {
  url_base : string;
  url_query : option string;
  url_fragment : option string;
  url_params : list (string * string)
}.

Module Url.

(** The bytes that the application/x-www-form-urlencoded serializer
    leaves as they are: ASCII letters and digits, [*], [-], [.], [_]. *)
Definition form_safe (n : N) : bool :=
  ((n =? 42) || (n =? 45) || (n =? 46) || (n =? 95)
   || ((48 <=? n) && (n <=? 57))
   || ((65 <=? n) && (n <=? 90))
   || ((97 <=? n) && (n <=? 122)))%N%bool.

Definition percent_byte (n : N) : string :=
  String "%" (String (Js.hex_upper (n / 16)) (String (Js.hex_upper (n mod 16)) EmptyString)).

Definition form_byte (n : N) : string :=
  if (n =? 32)%N then "+"
  else if form_safe n then String (ascii_of_N n) EmptyString
  else percent_byte n.

(** One code unit, UTF-8 encoded and then percent-encoded. *)
Definition form_char (c : ascii) : string :=
  let n := N_of_ascii c in
  if (n <? 128)%N then form_byte n
  else form_byte (192 + n / 64) ++ form_byte (128 + n mod 64).

Fixpoint form_encode (s : string) : string :=
  match s with
  | EmptyString => EmptyString
  | String c t => form_char c ++ form_encode t
  end.

(** The application/x-www-form-urlencoded serializer. *)
Definition serialize (l : list (string * string)) : string :=
  String.concat "&" (map (fun p => form_encode (fst p) ++ "=" ++ form_encode (snd p)) l).

(** [url.searchParams.append(name, value)]: the pair goes to the end of
    the list, and the URL's query becomes the serialisation of the list
    (null when that is empty). *)
Definition append (u : URL) (name value : string) : URL :=
  let l := (url_params u ++ [(name, value)])%list in
  let q := serialize l in
  {| url_base := url_base u;
     url_query := if String.eqb q EmptyString then None else Some q;
     url_fragment := url_fragment u;
     url_params := l |}.

(** [url.toString()], the URL serializer. *)
Definition toString (u : URL) : string :=
  url_base u
  ++ match url_query u with Some q => "?" ++ q | None => EmptyString end
  ++ match url_fragment u with Some f => "#" ++ f | None => EmptyString end.

End Url.

(** ** The client *)

(** A function value held by the client, known by its identity.  Two
    built-in ones are the constructor's defaults: [console.error] and
    [async (res) => await res.json()]. *)
Inductive closure : Type :=
| UserFn (id : nat)
| ConsoleError
| ResJson.

(** [string | AuthorizationResolver] *)
Inductive auth_value : Type :=
| AuthString (s : string)
| AuthResolver (f : closure).

(** [ResterOptions]: every field is optional. *)
Module Options.
Record ResterOptions : Type := mk {
  authorization : option auth_value;
  contentType : option string;
  resolver : option closure;
  errorHandler : option closure;
  fetchOptions : option value
}.
End Options.

(** The fields of a [RESTfulClient] instance. *)
Record RESTfulClient : Type := mkClient {
  root : string;
  authorization : auth_value;
  contentType : string;
  fetchOptions : value;
  resolver : closure;
  errorHandler : closure
}.

(** [x || d] on an optional string: the empty string is falsy. *)
Definition or_string (x : option string) (d : string) : string :=
  match x with
  | Some s => if String.eqb s EmptyString then d else s
  | None => d
  end.

(** [x || ''] on [string | AuthorizationResolver | undefined]: the only
    falsy string is the empty one, and a function is truthy. *)
Definition or_auth (x : option auth_value) : auth_value :=
  match x with
  | Some a => a
  | None => AuthString EmptyString
  end.

Definition or_closure (x : option closure) (d : closure) : closure :=
  match x with Some f => f | None => d end.

(** [constructor(root, options?)] *)
Definition constructor (root : string) (options : option Options.ResterOptions)
  : RESTfulClient :=
  {| root := root;
     authorization := or_auth (match options with Some o => Options.authorization o | None => None end);
     contentType := or_string (match options with Some o => Options.contentType o | None => None end)
                              "application/json";
     resolver := or_closure (match options with Some o => Options.resolver o | None => None end) ResJson;
     errorHandler := or_closure (match options with Some o => Options.errorHandler o | None => None end)
                                ConsoleError;
     fetchOptions := VObj [] |}.

(** ** Effects *)

Inductive exn : Type :=
| TypeError
| Thrown (v : value).

(** An evaluation either returns (for an [async] function: its promise
    fulfils) or throws (the promise rejects). *)
Inductive outcome (A : Type) : Type :=
| Return (a : A)
| Throw (e : exn).
Arguments Return {A} a.
Arguments Throw {A} e.

(** The calls that leave the class, in the order they are made. *)
Inductive event : Type :=
| CallAuthorization (f : closure)
| CallFetch (url : string) (init : obj)
| CallResolver (f : closure) (response : Response)
| CallErrorHandler (f : closure) (code : Z) (response : Response).

Section Client.

(** Everything outside the client object: the network, the variables the
    callbacks close over, the console. *)
Context {World : Type}.

(** What a call out of the class may do: it sees and may change the
    world, and since a callback can hold a reference to the client, the
    client's fields too; it returns or throws. *)
Definition host (A : Type) : Type :=
  RESTfulClient * World -> outcome A * (RESTfulClient * World).

(** The environment a client runs in: the callbacks behind the function
    values, the [fetch] function and the [URL] constructor ([None] is its
    [TypeError] on a string that is no valid URL). *)
Record Env : Type := mkEnv {
  call_authorization : closure -> host string;
  call_fetch : string -> obj -> host Response;
  call_resolver : closure -> Response -> host value;
  call_errorHandler : closure -> Z -> Response -> host unit;
  new_URL : string -> option URL
}.

Variable env : Env.

Record State : Type := mkState {
  this : RESTfulClient;
  world : World;
  trace : list event
}.

Definition M (A : Type) : Type := State -> outcome A * State.

Definition ret {A} (a : A) : M A := fun st => (Return a, st).

Definition throw {A} (e : exn) : M A := fun st => (Throw e, st).

Definition bind {A B} (m : M A) (k : A -> M B) : M B :=
  fun st =>
    match m st with
    | (Return a, st') => k a st'
    | (Throw e, st') => (Throw e, st')
    end.

Local Notation "x <- m ;; k" := (bind m (fun x => k))
  (at level 61, m at next level, right associativity).

(** Reading the fields of [this]. *)
Definition get_this : M RESTfulClient := fun st => (Return (this st), st).

(** A call out of the class: the event is recorded, the callee runs. *)
Definition call {A} (ev : event) (f : host A) : M A :=
  fun st =>
    let '(r, (c, w)) := f (this st, world st) in
    (r, {| this := c; world := w; trace := (trace st ++ [ev])%list |}).

(** [getAuthorization()] *)
Definition getAuthorization : M string :=
  c <- get_this ;;
  match authorization c with
  | AuthString s => ret s
  | AuthResolver f => call (CallAuthorization f) (call_authorization env f)
  end.

(** [resolve(response)] *)
Definition resolve (response : Response) : M value :=
  c <- get_this ;;
  if (400 <=? status response)%Z then
    _ <- call (CallErrorHandler (errorHandler c) (status response) response)
              (call_errorHandler env (errorHandler c) (status response) response) ;;
    ret (VResponse response)
  else
    call (CallResolver (resolver c) response) (call_resolver env (resolver c) response).

(** The string [createURL] hands to the [URL] constructor. *)
Definition createURL_string (root resourceUri : string) : string :=
  Str.replace_slashes (root ++ "/" ++ resourceUri).

(** [createURL(resourceUri)] *)
Definition createURL (resourceUri : string) : M URL :=
  c <- get_this ;;
  match new_URL env (createURL_string (root c) resourceUri) with
  | Some u => ret u
  | None => throw TypeError
  end.

(** The headers object that [request] builds. *)
Definition request_headers (c : RESTfulClient) (auth : string) (options : value) : obj :=
  let h := Js.spread [] (Js.member (fetchOptions c) "headers") in
  let h := Js.set_prop "Content-Type" (VStr (contentType c)) h in
  let h := Js.set_prop "Authorization" (VStr auth) h in
  Js.spread h (Js.member options "headers").

(** The second argument of [fetch] in [request]. *)
Definition request_init (c : RESTfulClient) (auth : string) (options : value) : obj :=
  let init := Js.spread (Js.spread [] (fetchOptions c)) options in
  Js.set_prop "headers" (VObj (request_headers c auth options)) init.

(** [url.toString()] on [string | URL]. *)
Definition url_toString (url : string + URL) : string :=
  match url with
  | inl s => s
  | inr u => Url.toString u
  end.

(** [request(url, options = {})] *)
Definition request (url : string + URL) (options : value) : M value :=
  let options := Js.default_arg options (VObj []) in
  c <- get_this ;;
  auth <- getAuthorization ;;
  let init := request_init c auth options in
  response <- call (CallFetch (url_toString url) init)
                   (call_fetch env (url_toString url) init) ;;
  resolve response.

(** [Object.keys(query).forEach(key => url.searchParams.append(key, query[key]))] *)
Definition append_query (url : URL) (query : value) : URL :=
  fold_left (fun u key => Url.append u key (Js.to_string (Js.member query key)))
            (Js.Object_keys query) url.

(** [Object.keys] throws a [TypeError] on [null] and [undefined]. *)
Definition keys_defined (v : value) : bool :=
  match v with
  | VNull | VUndefined => false
  | _ => true
  end.

(** [get(uri, query = {}, options = {})] *)
Definition get (uri : string) (query options : value) : M value :=
  let query := Js.default_arg query (VObj []) in
  let options := Js.default_arg options (VObj []) in
  url <- createURL uri ;;
  if keys_defined query then
    request (inr (append_query url query))
            (VObj (Js.set_prop "method" (VStr "GET") (Js.spread [] options)))
  else throw TypeError.

(** The [body] entry of [post]. *)
Definition post_body (body : value) : value :=
  match body with
  | VStr _ => body
  | _ => Js.JSON_stringify body
  end.

(** [post(uri, body, options = {})] *)
Definition post (uri : string) (body options : value) : M value :=
  let options := Js.default_arg options (VObj []) in
  url <- createURL uri ;;
  request (inr url)
          (VObj (Js.set_prop "method" (VStr "POST")
                   (Js.spread (Js.set_prop "body" (post_body body) []) options))).

(** [delete(uri, options = {})] *)
Definition delete (uri : string) (options : value) : M value :=
  let options := Js.default_arg options (VObj []) in
  url <- createURL uri ;;
  request (inr url)
          (VObj (Js.set_prop "method" (VStr "DELETE") (Js.spread [] options))).

(** [put(uri, body, options = {})] *)
Definition put (uri : string) (body options : value) : M value :=
  let options := Js.default_arg options (VObj []) in
  url <- createURL uri ;;
  request (inr url)
          (VObj (Js.set_prop "method" (VStr "PUT")
                   (Js.spread (Js.set_prop "body" (Js.JSON_stringify body) []) options))).

End Client.

Arguments Env World : clear implicits.
Arguments State World : clear implicits.
Arguments M World A : clear implicits.
Arguments host World A : clear implicits.

(** ** Calls of the public operations *)

(** A call of one of the four verb helpers. *)
Inductive helper : Type :=
| Get (uri : string) (query options : value)
| Post (uri : string) (body options : value)
| Delete (uri : string) (options : value)
| Put (uri : string) (body options : value).

Definition run_helper {World} (env : Env World) (h : helper) : M World value :=
  match h with
  | Get uri query options => get env uri query options
  | Post uri body options => post env uri body options
  | Delete uri options => delete env uri options
  | Put uri body options => put env uri body options
  end.

(** The method name each helper writes. *)
Definition verb (h : helper) : string :=
  match h with
  | Get _ _ _ => "GET"
  | Post _ _ _ => "POST"
  | Delete _ _ => "DELETE"
  | Put _ _ _ => "PUT"
  end.

Definition helper_uri (h : helper) : string :=
  match h with
  | Get uri _ _ | Post uri _ _ | Delete uri _ | Put uri _ _ => uri
  end.

(** The per-call options argument of a helper call. *)
Definition helper_options (h : helper) : value :=
  match h with
  | Get _ _ o | Post _ _ o | Delete _ o | Put _ _ o => o
  end.

(** [Object.keys(query)] does not throw. *)
Definition helper_defined (h : helper) : bool :=
  match h with
  | Get _ query _ => keys_defined (Js.default_arg query (VObj []))
  | _ => true
  end.

(** The entries a helper writes before it spreads its options. *)
Definition helper_base (h : helper) : obj :=
  match h with
  | Post _ body _ => Js.set_prop "body" (post_body body) []
  | Put _ body _ => Js.set_prop "body" (Js.JSON_stringify body) []
  | _ => []
  end.

(** The options object a helper hands to [request]: its own entries,
    the spread of its options and, last, its method. *)
Definition helper_passed (h : helper) : value :=
  VObj (Js.set_prop "method" (VStr (verb h))
          (Js.spread (helper_base h) (Js.default_arg (helper_options h) (VObj [])))).

(** The URL a helper requests, out of the one [createURL] returned. *)
Definition helper_url (h : helper) (u : URL) : URL :=
  match h with
  | Get _ query _ => append_query u (Js.default_arg query (VObj []))
  | _ => u
  end.

(** The name-value pairs [get] appends for a query object, in the order
    of [Object.keys]. *)
Definition query_pairs (query : value) : list (string * string) :=
  map (fun key => (key, Js.to_string (Js.member query key))) (Js.Object_keys query).

(** The name-value pairs of an object literal, in the order written. *)
Definition written_pairs (l : list (string * value)) : list (string * string) :=
  map (fun kv => (fst kv, Js.to_string (snd kv))) l.

(** A call of one of the public operations. *)
Inductive operation : Type :=
| Helper (h : helper)
| Request (url : string + URL) (options : value)
| Resolve (response : Response)
| GetAuthorization
| CreateURL (resourceUri : string).

(** The state an operation leaves. *)
Definition run_operation {World} (env : Env World) (op : operation)
  (st : State World) : State World :=
  match op with
  | Helper h => snd (run_helper env h st)
  | Request url options => snd (request env url options st)
  | Resolve response => snd (resolve env response st)
  | GetAuthorization => snd (getAuthorization env st)
  | CreateURL uri => snd (createURL env uri st)
  end.

(** A callee that leaves the fields of the client as they are. *)
Definition keeps_client {World A} (f : host World A) : Prop :=
  forall c w, fst (snd (f (c, w))) = c.

Definition env_keeps_client {World} (env : Env World) : Prop :=
  (forall f, keeps_client (call_authorization env f))
  /\ (forall url init, keeps_client (call_fetch env url init))
  /\ (forall f r, keeps_client (call_resolver env f r))
  /\ (forall f code r, keeps_client (call_errorHandler env f code r)).

(** ** Reading a trace *)

Definition fetch_calls (tr : list event) : list (string * obj) :=
  flat_map (fun e => match e with CallFetch u i => [(u, i)] | _ => [] end) tr.

Definition authorization_calls (tr : list event) : list closure :=
  flat_map (fun e => match e with CallAuthorization f => [f] | _ => [] end) tr.

(** The header [name] of a [fetch] call, read off its second argument. *)
Definition sent_header (init : obj) (name : string) : option value :=
  match Js.lookup "headers" init with
  | Some h => Js.lookup name (Js.own_props h)
  | None => None
  end.

(** ** The separator rule in words *)

Module Spec.

(** A string cut into its maximal runs of slashes and backslashes and
    the characters between them. *)
Inductive token : Type :=
| Text (c : ascii)
| Run (r : string).

Fixpoint tokenize (s : string) : list token :=
  match s with
  | EmptyString => []
  | String c t =>
      if Str.is_sep c then
        match tokenize t with
        | Run r :: ts => Run (String c r) :: ts
        | ts => Run (String c EmptyString) :: ts
        end
      else Text c :: tokenize t
  end.

Definition starts_with_run (ts : list token) : bool :=
  match ts with
  | Run _ :: _ => true
  | _ => false
  end.

Definition strip_run (ts : list token) : list token :=
  match ts with
  | Run _ :: ts' => ts'
  | _ => ts
  end.

(** The rule as the specification words it: a run that is not
    immediately preceded by a colon becomes one forward slash, and
    nothing else changes.  [after_colon] tells whether the token before
    is a colon. *)
Fixpoint collapse (after_colon : bool) (ts : list token) : string :=
  match ts with
  | [] => EmptyString
  | Text c :: ts' => String c (collapse (Ascii.eqb c ":") ts')
  | Run r :: ts' => (if after_colon then r else "/") ++ collapse false ts'
  end.

Definition collapse_runs (s : string) : string := collapse false (tokenize s).

(** What is left of a run that the pattern cannot match from its first
    character on, since nothing or a colon stands before it: the first
    character as it is, and one forward slash for the rest, if any. *)
Definition keep_first (r : string) : string :=
  match r with
  | String d (String _ _) => String d "/"
  | _ => r
  end.

(** The rule as the pattern applies it: a run after any character but a
    colon becomes one forward slash; a run after a colon or at the very
    start keeps its first character.  [guarded] tells whether the token
    before is a colon or there is none. *)
Fixpoint collapse_guarded (guarded : bool) (ts : list token) : string :=
  match ts with
  | [] => EmptyString
  | Text c :: ts' => String c (collapse_guarded (Ascii.eqb c ":") ts')
  | Run r :: ts' => (if guarded then keep_first r else "/") ++ collapse_guarded false ts'
  end.

Definition collapse_after_first (s : string) : string :=
  collapse_guarded true (tokenize s).

(** *** The order of the keys of an object, in words *)

(** A key that is no array index. *)
Definition named (k : string) : bool :=
  match Js.array_index k with
  | Some _ => false
  | None => true
  end.

(** Array indices first, in ascending numeric order, then the other
    keys: after an array index come only greater array indices and
    other keys, after another key only other keys. *)
Fixpoint ordered (ks : list string) : Prop :=
  match ks with
  | [] => True
  | k :: t =>
      (forall k', In k' t ->
         match Js.array_index k, Js.array_index k' with
         | Some i, Some j => (i < j)%N
         | Some _, None => True
         | None, Some _ => False
         | None, None => True
         end)
      /\ ordered t
  end.

(** The keys of a list in the order of their first occurrence. *)
Fixpoint firsts (ks : list string) : list string :=
  match ks with
  | [] => []
  | k :: t => k :: filter (fun k' => negb (String.eqb k' k)) (firsts t)
  end.

(** What an object literal gives a key: the value written for it last. *)
Definition last_written {V : Type} (k : string) (l : list (string * V)) : option V :=
  Js.lookup k (rev l).

(** The text of a value as a search parameter, case by case: a string
    is itself, a number is a safe integer and the text reads back as
    that number, the other primitives are their names, an object is
    its tag. *)
Definition coerced (v : value) (x : string) : Prop :=
  match v with
  | VUndefined => x = "undefined"
  | VNull => x = "null"
  | VBool b => x = if b then "true" else "false"
  | VNum n => Js.safe_integer n = true /\ Js.parse_number x = Some (n, EmptyString)
  | VStr s => x = s
  | VObj _ => x = "[object Object]"
  | VResponse _ => x = "[object Response]"
  end.

End Spec.

(** ** A test environment *)

Module Demo.

(** The world counts the calls of the authorization resolver, which
    answers a fresh token each time; [fetch] answers 404 for one URL and
    200 for the rest; the [URL] constructor accepts what starts with a
    letter. *)
Definition World : Type := nat.

Definition parse (s : string) : option URL :=
  match s with
  | String c _ =>
      let n := N_of_ascii c in
      if (((65 <=? n) && (n <=? 90)) || ((97 <=? n) && (n <=? 122)))%N%bool
      then Some {| url_base := s; url_query := None; url_fragment := None; url_params := [] |}
      else None
  | EmptyString => None
  end.

Definition env : Env World :=
  {| call_authorization := fun _ cw =>
       (Return ("Bearer " ++ Js.string_of_N (N.of_nat (snd cw))), (fst cw, S (snd cw)));
     call_fetch := fun url _ cw =>
       (Return {| response_ref := String.length url;
                  status := if String.eqb url "https://api.test/missing" then 404 else 200 |},
        cw);
     call_resolver := fun _ r cw => (Return (VStr "parsed"), cw);
     call_errorHandler := fun _ _ _ cw => (Return tt, cw);
     new_URL := parse |}.

(** An environment in which the token has expired and the network is
    down: the authorization resolver and [fetch] both throw. *)
Definition broken : Env World :=
  {| call_authorization := fun _ cw => (Throw (Thrown (VStr "expired")), cw);
     call_fetch := fun _ _ cw => (Throw (Thrown (VStr "network")), cw);
     call_resolver := fun _ r cw => (Return (VStr "parsed"), cw);
     call_errorHandler := fun _ _ _ cw => (Return tt, cw);
     new_URL := parse |}.

(** A client whose authorization is a resolver function. *)
Definition client : RESTfulClient :=
  constructor "https://api.test"
    (Some {| Options.authorization := Some (AuthResolver (UserFn 0));
             Options.contentType := None;
             Options.resolver := None;
             Options.errorHandler := None;
             Options.fetchOptions := None |}).

Definition start : State World := {| this := client; world := 0; trace := [] |}.

(** The same client after its owner set default transport options. *)
Definition layered : State World :=
  {| this := {| root := root client;
                authorization := authorization client;
                contentType := contentType client;
                fetchOptions :=
                  VObj [("redirect", VStr "follow");
                        ("headers", VObj [("Accept", VStr "text/html");
                                          ("Content-Type", VStr "text/plain");
                                          ("X-Trace", VStr "on")])];
                resolver := resolver client;
                errorHandler := errorHandler client |};
     world := 0;
     trace := [] |}.

(** The client of the README. *)
Definition readme : State World :=
  {| this := constructor "https://myapi.com/"
               (Some {| Options.authorization := Some (AuthString "Bearer jwttoken.string.forauth");
                        Options.contentType := Some "application/json";
                        Options.resolver := Some (UserFn 1);
                        Options.errorHandler := None;
                        Options.fetchOptions := Some (VObj [("redirect", VStr "follow")]) |});
     world := 0;
     trace := [] |}.

(** The URLs and methods of the [fetch] calls in a trace. *)
Definition sent (st : State World) : list (string * option value) :=
  map (fun call => (fst call, Js.lookup "method" (snd call))) (fetch_calls (trace st)).

(** A client of a file tree. *)
Definition files : State World :=
  {| this := constructor "file:///srv" None; world := 0; trace := [] |}.

(** A client built from the root alone. *)
Definition plain : State World :=
  {| this := constructor "https://api.test" None; world := 0; trace := [] |}.

End Demo.

(** * Theorems *)

(** ** The pattern of [createURL] *)

Section Replace.

Import Str Spec.

Lemma is_sep_not_colon (c : ascii) : is_sep c = true -> not_colon c = true.
Proof.
  unfold is_sep, not_colon.
  destruct (Ascii.eqb_spec c "/") as [-> | _]; [reflexivity |].
  destruct (Ascii.eqb_spec c "\") as [-> | _]; [reflexivity | discriminate].
Qed.

(** Inside a match the scan skips the rest of the run and then goes on as
    outside. *)
Lemma replace_from_true (s : string) :
  replace_from true s = replace_from false (drop_seps s).
Proof.
  induction s as [| c t IH]; simpl; [reflexivity |].
  destruct (is_sep c); [exact IH | reflexivity].
Qed.

(** The two equations of the global replace. *)
Lemma replace_slashes_match (c : ascii) (t : string) :
  not_colon c = true -> starts_with_sep t = true ->
  replace_slashes (String c t) = String c (String "/" (replace_slashes (drop_seps t))).
Proof.
  intros Hc Ht. unfold replace_slashes. simpl.
  rewrite Hc, Ht. simpl. now rewrite replace_from_true.
Qed.

Lemma replace_slashes_copy (c : ascii) (t : string) :
  (not_colon c && starts_with_sep t)%bool = false ->
  replace_slashes (String c t) = String c (replace_slashes t).
Proof.
  intros H. unfold replace_slashes. simpl. now rewrite H.
Qed.

Lemma tokenize_head (s : string) :
  starts_with_run (tokenize s) = starts_with_sep s.
Proof.
  destruct s as [| c t]; simpl; [reflexivity |].
  destruct (is_sep c); [| reflexivity].
  destruct (tokenize t) as [| [d | r] ts]; reflexivity.
Qed.

(** Runs are maximal and not empty. *)
Lemma tokenize_run (s : string) (r : string) (ts : list token) :
  tokenize s = Run r :: ts ->
  (exists d r', r = String d r') /\ starts_with_run ts = false.
Proof.
  revert r ts. induction s as [| c t IH]; simpl; intros r ts H; [discriminate |].
  destruct (is_sep c); [| discriminate].
  destruct (tokenize t) as [| [d | r0] ts0] eqn:E.
  - injection H as <- <-. split; [eauto | reflexivity].
  - injection H as <- <-. split; [eauto | reflexivity].
  - injection H as <- <-. split; [eauto |].
    exact (proj2 (IH _ _ eq_refl)).
Qed.

Lemma collapse_guarded_flag (b b' : bool) (ts : list token) :
  starts_with_run ts = false ->
  collapse_guarded b ts = collapse_guarded b' ts.
Proof.
  destruct ts as [| [c | r] ts]; simpl; intros H; [reflexivity | reflexivity | discriminate].
Qed.

Lemma replace_from_tokens (s : string) :
  replace_from false s = collapse_guarded true (tokenize s)
  /\ replace_from true s = collapse_guarded true (strip_run (tokenize s)).
Proof.
  induction s as [| c t [IH0 IH1]]; [split; reflexivity |].
  pose proof (tokenize_head t) as Hhead.
  simpl. destruct (is_sep c) eqn:Hsep.
  - rewrite (is_sep_not_colon c Hsep). simpl.
    destruct (tokenize t) as [| [d | r] ts] eqn:E; simpl in *; rewrite <- Hhead; simpl.
    + split; [now rewrite IH0 | exact IH1].
    + split; [now rewrite IH0 | exact IH1].
    + destruct (tokenize_run t r ts E) as [(d & r' & ->) Hts].
      split; [| exact IH1].
      rewrite IH1. simpl. do 2 f_equal.
      now apply collapse_guarded_flag.
  - simpl.
    assert (H0 : (if (not_colon c && starts_with_sep t)%bool
                  then String c (String "/" (replace_from true t))
                  else String c (replace_from false t))
                 = String c (collapse_guarded (Ascii.eqb c ":") (tokenize t))).
    { unfold not_colon. destruct (Ascii.eqb c ":") eqn:Hc; simpl.
      - now rewrite IH0.
      - rewrite <- Hhead.
        destruct (tokenize t) as [| [d | r] ts] eqn:E; simpl in *.
        + now rewrite IH0.
        + now rewrite IH0.
        + rewrite IH1. do 2 f_equal.
          apply collapse_guarded_flag.
          exact (proj2 (tokenize_run t r ts E)). }
    split; exact H0.
Qed.

(** The pattern, run by run. *)
Lemma replace_slashes_tokens (s : string) :
  replace_slashes s = collapse_after_first s.
Proof. exact (proj1 (replace_from_tokens s)). Qed.

End Replace.

(** ** Objects *)

Section ObjectFacts.

Import Js.

Context {V : Type}.

Implicit Types (o t l : props V) (k : string) (v : V).

Lemma lookup_none_iff k o : lookup k o = None <-> ~ In k (keys o).
Proof.
  induction o as [| [k' v'] o IH]; simpl; [tauto |].
  destruct (String.eqb_spec k k') as [-> | Hne].
  - split; [discriminate | intros H; exfalso; apply H; now left].
  - rewrite IH. split; [intros H [E | HI]; [congruence | tauto] | tauto].
Qed.

Lemma has_key_false_iff k o : has_key k o = false <-> ~ In k (keys o).
Proof.
  rewrite <- lookup_none_iff. unfold has_key.
  destruct (lookup k o); split; congruence.
Qed.

Lemma keys_update k v o : keys (update k v o) = keys o.
Proof.
  induction o as [| [k' v'] o IH]; simpl; [reflexivity |].
  destruct (String.eqb_spec k k') as [-> | Hne]; simpl; [reflexivity | now rewrite IH].
Qed.

Lemma lookup_update_eq k v o : has_key k o = true -> lookup k (update k v o) = Some v.
Proof.
  unfold has_key. induction o as [| [k' v'] o IH]; simpl; [discriminate |].
  destruct (String.eqb_spec k k') as [-> | Hne]; simpl.
  - now rewrite String.eqb_refl.
  - destruct (String.eqb_spec k k'); [contradiction | exact IH].
Qed.

Lemma lookup_update_neq k k' v o : k <> k' -> lookup k' (update k v o) = lookup k' o.
Proof.
  intros Hne. induction o as [| [k0 v0] o IH]; simpl; [reflexivity |].
  destruct (String.eqb_spec k k0) as [-> | Hk]; simpl.
  - destruct (String.eqb_spec k' k0); [congruence | reflexivity].
  - now rewrite IH.
Qed.

Lemma in_keys_create k v o k' : In k' (keys (create k v o)) <-> k' = k \/ In k' (keys o).
Proof.
  induction o as [| [k0 v0] o IH]; simpl; [intuition congruence |].
  destruct (array_index k) as [i |], (array_index k0) as [j |];
    try destruct (N.ltb i j); simpl; rewrite ?IH; intuition congruence.
Qed.

Lemma NoDup_keys_create k v o :
  ~ In k (keys o) -> NoDup (keys o) -> NoDup (keys (create k v o)).
Proof.
  induction o as [| [k0 v0] o IH]; simpl; intros Hk Hnd.
  - constructor; [tauto | constructor].
  - inversion Hnd as [| ? ? Hk0 Hnd']; subst.
    assert (Hrec : NoDup (k0 :: keys (create k v o))).
    { constructor; [| apply IH; tauto].
      rewrite in_keys_create. intros [-> | HI]; tauto. }
    assert (Hfront : NoDup (k :: k0 :: keys o)) by (constructor; assumption).
    destruct (array_index k) as [i |], (array_index k0) as [j |];
      try destruct (N.ltb i j); simpl; assumption.
Qed.

Lemma lookup_create_eq k v o : ~ In k (keys o) -> lookup k (create k v o) = Some v.
Proof.
  induction o as [| [k0 v0] o IH]; simpl; intros Hk.
  - now rewrite String.eqb_refl.
  - assert (Hne : String.eqb k k0 = false)
      by (apply String.eqb_neq; intros ->; apply Hk; now left).
    destruct (array_index k) as [i |], (array_index k0) as [j |];
      try destruct (N.ltb i j); simpl;
      rewrite ?String.eqb_refl, ?Hne; try reflexivity; apply IH; tauto.
Qed.

Lemma lookup_create_neq k k' v o : k <> k' -> lookup k' (create k v o) = lookup k' o.
Proof.
  intros Hne.
  assert (H' : String.eqb k' k = false) by (apply String.eqb_neq; congruence).
  induction o as [| [k0 v0] o IH]; simpl.
  - now rewrite H'.
  - destruct (array_index k) as [i |], (array_index k0) as [j |];
      try destruct (N.ltb i j); simpl; rewrite ?H', ?IH; reflexivity.
Qed.

Lemma lookup_set_prop_eq k v o : lookup k (set_prop k v o) = Some v.
Proof.
  unfold set_prop. destruct (has_key k o) eqn:H.
  - now apply lookup_update_eq.
  - apply lookup_create_eq. now apply has_key_false_iff.
Qed.

Lemma lookup_set_prop_neq k k' v o : k <> k' -> lookup k' (set_prop k v o) = lookup k' o.
Proof.
  intros Hne. unfold set_prop. destruct (has_key k o).
  - now apply lookup_update_neq.
  - now apply lookup_create_neq.
Qed.

Lemma lookup_set_prop k k' v o :
  lookup k' (set_prop k v o) = if String.eqb k' k then Some v else lookup k' o.
Proof.
  destruct (String.eqb_spec k' k) as [-> | Hne].
  - apply lookup_set_prop_eq.
  - apply lookup_set_prop_neq. congruence.
Qed.

Lemma NoDup_keys_set_prop k v o : NoDup (keys o) -> NoDup (keys (set_prop k v o)).
Proof.
  intros Hnd. unfold set_prop. destruct (has_key k o) eqn:H.
  - now rewrite keys_update.
  - apply NoDup_keys_create; [now apply has_key_false_iff | assumption].
Qed.

Lemma NoDup_keys_define_all l t : NoDup (keys t) -> NoDup (keys (define_all t l)).
Proof.
  unfold define_all. revert t.
  induction l as [| [k v] l IH]; simpl; intros t Ht; [assumption |].
  apply IH. now apply NoDup_keys_set_prop.
Qed.

Lemma NoDup_keys_obj_literal l : NoDup (keys (obj_literal l)).
Proof. apply NoDup_keys_define_all. constructor. Qed.

(** A later definition wins; a key that is not defined keeps what the
    target had. *)
Lemma lookup_define_all k l t :
  NoDup (keys l) ->
  lookup k (define_all t l) =
    match lookup k l with
    | Some v => Some v
    | None => lookup k t
    end.
Proof.
  unfold define_all. revert t.
  induction l as [| [k0 v0] l IH]; simpl; intros t Hnd; [reflexivity |].
  inversion Hnd as [| ? ? Hk0 Hnd']; subst.
  rewrite (IH _ Hnd').
  destruct (String.eqb_spec k k0) as [-> | Hne].
  - apply lookup_none_iff in Hk0. rewrite Hk0. apply lookup_set_prop_eq.
  - rewrite lookup_set_prop_neq by congruence. reflexivity.
Qed.

(** Defining new, non-index keys on an object appends them in order. *)
Lemma define_all_append l t :
  NoDup (keys l) ->
  (forall k, In k (keys l) -> array_index k = None /\ ~ In k (keys t)) ->
  define_all t l = (t ++ l)%list.
Proof.
  unfold define_all. revert t.
  induction l as [| [k v] l IH]; simpl; intros t Hnd Hl; [now rewrite app_nil_r |].
  inversion Hnd as [| ? ? Hk Hnd']; subst.
  destruct (Hl k (or_introl eq_refl)) as [Hidx Hkt].
  assert (Hset : set_prop k v t = (t ++ [(k, v)])%list).
  { unfold set_prop. apply has_key_false_iff in Hkt. rewrite Hkt.
    clear -Hidx. induction t as [| [k0 v0] t IHt]; simpl; [reflexivity |].
    rewrite Hidx. now rewrite IHt. }
  rewrite Hset, IH; [now rewrite <- app_assoc | assumption |].
  intros k' Hk'. destruct (Hl k' (or_intror Hk')) as [Hi Hn]. split; [assumption |].
  unfold keys. rewrite map_app, in_app_iff. simpl.
  intros [HI | [<- | []]]; tauto.
Qed.

End ObjectFacts.

Section SpreadFacts.

Import Js.

Lemma NoDup_own_props (v : value) : NoDup (keys (own_props v)).
Proof.
  destruct v; simpl; try constructor; apply NoDup_keys_obj_literal.
Qed.

Lemma lookup_spread (k : string) (t : obj) (v : value) :
  lookup k (spread t v) =
    match lookup k (own_props v) with
    | Some x => Some x
    | None => lookup k t
    end.
Proof. apply lookup_define_all, NoDup_own_props. Qed.

Lemma NoDup_keys_spread (t : obj) (v : value) :
  NoDup (keys t) -> NoDup (keys (spread t v)).
Proof. apply NoDup_keys_define_all. Qed.

Lemma own_props_default (v : value) :
  own_props (default_arg v (VObj [])) = own_props v.
Proof. destruct v; reflexivity. Qed.

Lemma member_default (v : value) (k : string) :
  member (default_arg v (VObj [])) k = member v k.
Proof. unfold member. now rewrite own_props_default. Qed.

End SpreadFacts.

(** ** Running the methods *)

Section Run.

Context {World : Type} (env : Env World).

Implicit Types (st : State World) (tr : list event).

Lemma fetch_calls_app tr tr' :
  fetch_calls (tr ++ tr') = (fetch_calls tr ++ fetch_calls tr')%list.
Proof. apply flat_map_app. Qed.

Lemma authorization_calls_app tr tr' :
  authorization_calls (tr ++ tr') = (authorization_calls tr ++ authorization_calls tr')%list.
Proof. apply flat_map_app. Qed.

(** A call out of the class adds its event to the trace, whatever the
    callee does. *)
Lemma call_trace {A} (ev : event) (f : host World A) st :
  trace (snd (call ev f st)) = (trace st ++ [ev])%list.
Proof.
  unfold call. destruct (f (this st, world st)) as [r [c w]]. reflexivity.
Qed.

Lemma call_result {A} (ev : event) (f : host World A) st :
  fst (call ev f st) = fst (f (this st, world st)).
Proof.
  unfold call. destruct (f (this st, world st)) as [r [c w]]. reflexivity.
Qed.

Lemma call_this {A} (ev : event) (f : host World A) st :
  this (snd (call ev f st)) = fst (snd (f (this st, world st))).
Proof.
  unfold call. destruct (f (this st, world st)) as [r [c w]]. reflexivity.
Qed.

Lemma getAuthorization_run st :
  getAuthorization env st =
    match authorization (this st) with
    | AuthString s => (Return s, st)
    | AuthResolver f => call (CallAuthorization f) (call_authorization env f) st
    end.
Proof.
  unfold getAuthorization, bind, get_this, ret.
  destruct (authorization (this st)); reflexivity.
Qed.

Lemma getAuthorization_trace st :
  trace (snd (getAuthorization env st)) =
    (trace st ++ match authorization (this st) with
                 | AuthString _ => []
                 | AuthResolver f => [CallAuthorization f]
                 end)%list.
Proof.
  rewrite getAuthorization_run. destruct (authorization (this st)).
  - simpl. now rewrite app_nil_r.
  - apply call_trace.
Qed.

Lemma resolve_run (response : Response) st :
  resolve env response st =
    if (400 <=? status response)%Z then
      match call (CallErrorHandler (errorHandler (this st)) (status response) response)
                 (call_errorHandler env (errorHandler (this st)) (status response) response) st with
      | (Return _, st') => (Return (VResponse response), st')
      | (Throw e, st') => (Throw e, st')
      end
    else
      call (CallResolver (resolver (this st)) response)
           (call_resolver env (resolver (this st)) response) st.
Proof.
  unfold resolve, bind, get_this, ret.
  destruct (400 <=? status response)%Z; reflexivity.
Qed.

Lemma resolve_trace (response : Response) st :
  trace (snd (resolve env response st)) =
    (trace st ++ [if (400 <=? status response)%Z
                  then CallErrorHandler (errorHandler (this st)) (status response) response
                  else CallResolver (resolver (this st)) response])%list.
Proof.
  rewrite resolve_run. destruct (400 <=? status response)%Z.
  - rewrite <- (call_trace _ (call_errorHandler env (errorHandler (this st)) (status response) response)).
    destruct (call _ _ st) as [[a | e] st']; reflexivity.
  - apply call_trace.
Qed.

Lemma createURL_run (uri : string) st :
  createURL env uri st =
    (match new_URL env (createURL_string (root (this st)) uri) with
     | Some u => Return u
     | None => Throw TypeError
     end, st).
Proof.
  unfold createURL, bind, get_this, ret, throw.
  destruct (new_URL env _); reflexivity.
Qed.

Lemma request_run (url : string + URL) (options : value) st :
  request env url options st =
    match getAuthorization env st with
    | (Return auth, st1) =>
        let init := request_init (this st) auth (Js.default_arg options (VObj [])) in
        match call (CallFetch (url_toString url) init)
                   (call_fetch env (url_toString url) init) st1 with
        | (Return response, st2) => resolve env response st2
        | (Throw e, st2) => (Throw e, st2)
        end
    | (Throw e, st1) => (Throw e, st1)
    end.
Proof. reflexivity. Qed.

(** [request] calls [fetch] once when the authorization is resolved. *)
Lemma request_fetch_calls (url : string + URL) (options : value) st auth st1 :
  getAuthorization env st = (Return auth, st1) ->
  fetch_calls (trace (snd (request env url options st))) =
    (fetch_calls (trace st)
     ++ [(url_toString url, request_init (this st) auth (Js.default_arg options (VObj [])))])%list.
Proof.
  intros Hauth. rewrite request_run, Hauth. cbv zeta.
  set (init := request_init _ _ _).
  pose proof (call_trace (CallFetch (url_toString url) init)
                         (call_fetch env (url_toString url) init) st1) as Hf.
  pose proof (getAuthorization_trace st) as Ha. rewrite Hauth in Ha. simpl in Ha.
  assert (Hst1 : fetch_calls (trace st1) = fetch_calls (trace st)).
  { rewrite Ha, fetch_calls_app.
    destruct (authorization (this st)); simpl; now rewrite app_nil_r. }
  destruct (call _ _ st1) as [[response | e] st2]; simpl in Hf |- *.
  - rewrite resolve_trace, fetch_calls_app, Hf, fetch_calls_app, Hst1. simpl.
    destruct (400 <=? status response)%Z; simpl; now rewrite app_nil_r.
  - rewrite Hf, fetch_calls_app, Hst1. reflexivity.
Qed.

(** And not at all when resolving the authorization throws. *)
Lemma request_no_fetch (url : string + URL) (options : value) st e st1 :
  getAuthorization env st = (Throw e, st1) ->
  request env url options st = (Throw e, st1)
  /\ fetch_calls (trace st1) = fetch_calls (trace st).
Proof.
  intros Hauth. rewrite request_run, Hauth. split; [reflexivity |].
  pose proof (getAuthorization_trace st) as Ha. rewrite Hauth in Ha. simpl in Ha.
  rewrite Ha, fetch_calls_app.
  destruct (authorization (this st)); simpl; now rewrite app_nil_r.
Qed.

End Run.

(** ** The headers of a request *)

Section Headers.

Import Js.

Implicit Types (c : RESTfulClient) (auth name : string) (options : value).

Lemma NoDup_request_headers c auth options :
  NoDup (keys (request_headers c auth options)).
Proof.
  unfold request_headers.
  apply NoDup_keys_spread. do 2 apply NoDup_keys_set_prop.
  apply NoDup_keys_spread. constructor.
Qed.

Lemma lookup_obj_literal {V} (k : string) (l : list (string * V)) :
  NoDup (keys l) -> lookup k (obj_literal l) = lookup k l.
Proof.
  intros H. unfold obj_literal. rewrite lookup_define_all by assumption.
  simpl. now destruct (lookup k l).
Qed.

(** The three layers of the headers object. *)
Lemma lookup_request_headers c auth options name :
  lookup name (request_headers c auth options) =
    match lookup name (own_props (member options "headers")) with
    | Some v => Some v
    | None =>
        if String.eqb name "Authorization" then Some (VStr auth)
        else if String.eqb name "Content-Type" then Some (VStr (contentType c))
        else lookup name (own_props (member (fetchOptions c) "headers"))
    end.
Proof.
  unfold request_headers.
  rewrite lookup_spread, !lookup_set_prop, lookup_spread. simpl.
  now destruct (lookup name (own_props (member (fetchOptions c) "headers"))).
Qed.

Lemma sent_header_request_init c auth options name :
  sent_header (request_init c auth options) name =
    lookup name (request_headers c auth options).
Proof.
  unfold sent_header, request_init. rewrite lookup_set_prop_eq. simpl.
  apply lookup_obj_literal, NoDup_request_headers.
Qed.

(** What [request] sends for a key other than [headers]. *)
Lemma lookup_request_init c auth options k :
  k <> "headers" ->
  lookup k (request_init c auth options) =
    match lookup k (own_props options) with
    | Some v => Some v
    | None => lookup k (own_props (fetchOptions c))
    end.
Proof.
  intros Hk. unfold request_init.
  rewrite lookup_set_prop_neq by congruence.
  rewrite !lookup_spread. simpl.
  now destruct (lookup k (own_props (fetchOptions c))).
Qed.

End Headers.

(** The calls of the authorization resolver that [request] adds are
    those of [getAuthorization]. *)
Section RequestTrace.

Context {World : Type} (env : Env World).

Lemma request_trace (url : string + URL) (options : value) (st : State World) :
  exists tl,
    trace (snd (request env url options st)) =
      (trace (snd (getAuthorization env st)) ++ tl)%list
    /\ authorization_calls tl = [].
Proof.
  rewrite request_run.
  destruct (getAuthorization env st) as [[auth | e] st1]; cbv zeta;
    [| exists []; simpl; now rewrite app_nil_r].
  set (init := request_init _ _ _).
  pose proof (call_trace (CallFetch (url_toString url) init)
                         (call_fetch env (url_toString url) init) st1) as Hf.
  destruct (call _ _ st1) as [[response | e] st2]; simpl in Hf |- *.
  - rewrite resolve_trace, Hf, <- app_assoc. eexists. split; [reflexivity |].
    simpl. now destruct (400 <=? status response)%Z.
  - rewrite Hf. eexists. split; reflexivity.
Qed.

Lemma request_authorization_calls (url : string + URL) (options : value) (st : State World) :
  authorization_calls (trace (snd (request env url options st))) =
    (authorization_calls (trace st)
     ++ match authorization (this st) with
        | AuthString _ => []
        | AuthResolver f => [f]
        end)%list.
Proof.
  destruct (request_trace url options st) as (tl & -> & Htl).
  rewrite getAuthorization_trace, !authorization_calls_app, Htl, app_nil_r.
  now destruct (authorization (this st)).
Qed.

End RequestTrace.

(** ** The calls of the README *)

Example readme_get :
  Demo.sent (snd (get Demo.env "example"
                    (VObj [("id", VNum 1); ("name", VStr "resource")]) VUndefined Demo.readme))
  = [("https://myapi.com/example?id=1&name=resource", Some (VStr "GET"))].
Proof. reflexivity. Qed.

Example readme_post :
  Demo.sent (snd (post Demo.env "/example"
                    (VObj [("id", VNum 2); ("name", VStr "new resource")]) VUndefined
                    Demo.readme))
  = [("https://myapi.com/example", Some (VStr "POST"))].
Proof. reflexivity. Qed.

Example readme_put :
  Demo.sent (snd (put Demo.env "example/3" (VObj [("name", VStr "updated resource")])
                    VUndefined Demo.readme))
  = [("https://myapi.com/example/3", Some (VStr "PUT"))].
Proof. reflexivity. Qed.

Example readme_delete :
  Demo.sent (snd (delete Demo.env "example/4" VUndefined Demo.readme))
  = [("https://myapi.com/example/4", Some (VStr "DELETE"))].
Proof. reflexivity. Qed.

(** A whole call: the authorization is resolved, [fetch] answers 404,
    the error handler is told, and the response comes back. *)
Example get_missing :
  get Demo.env "missing" VUndefined VUndefined Demo.start
  = (Return (VResponse {| response_ref := 24; status := 404 |}),
     {| this := Demo.client;
        world := 1;
        trace :=
          [CallAuthorization (UserFn 0);
           CallFetch "https://api.test/missing"
             [("method", VStr "GET");
              ("headers", VObj [("Content-Type", VStr "application/json");
                                ("Authorization", VStr "Bearer 0")])];
           CallErrorHandler ConsoleError 404 {| response_ref := 24; status := 404 |}] |}).
Proof. reflexivity. Qed.

(** * The claims *)

(** ** C1: the URL builder *)

(** C1, for a root that spells its scheme separator with three slashes:
    the pattern takes the first slash after the colon as the character
    before the run, so [file:///srv] loses a slash, while a run that is
    immediately preceded by a colon stays whole under the rule as
    worded. *)
Lemma createURL_triple_slash_root :
  fst (createURL Demo.env "a" Demo.files) = Return (mkURL "file://srv/a" None None [])
  /\ createURL_string "file:///srv" "a" = "file://srv/a"
  /\ Spec.collapse_runs ("file:///srv" ++ "/" ++ "a") = "file:///srv/a"
  /\ createURL_string "file:///srv" "a" <> Spec.collapse_runs ("file:///srv" ++ "/" ++ "a").
Proof. repeat split. discriminate. Qed.

(** C1, amended: [createURL] hands to the [URL] constructor the string
    root, slash, path in which every run of slashes and backslashes that
    follows a character other than a colon is replaced by one forward
    slash, and a run that follows a colon, or starts the string, keeps
    its first character and has the rest, if any, replaced by one
    forward slash; it returns the URL so constructed, or throws when the
    string is no URL.  For the root [https://api.test///] and the path
    [//a//b] the string is [https://api.test/a/b]. *)
Theorem createURL_collapses_runs {World} (env : Env World)
  (resourceUri : string) (st : State World) :
  createURL env resourceUri st =
    (match new_URL env (Spec.collapse_after_first (root (this st) ++ "/" ++ resourceUri)) with
     | Some u => Return u
     | None => Throw TypeError
     end, st)
  /\ Spec.collapse_after_first ("https://api.test///" ++ "/" ++ "//a//b")
     = "https://api.test/a/b".
Proof.
  split; [| reflexivity].
  rewrite createURL_run. unfold createURL_string.
  now rewrite replace_slashes_tokens.
Qed.

(** ** C3: the resolution step *)

(** C3: on a status of 400 or more [resolve] calls the error handler
    once, with the status and the response, does not call the resolver,
    and returns the response itself (or throws what the handler threw);
    below 400 it calls the resolver once, with the response, does not
    call the error handler, and its result is the resolver's. *)
Theorem resolve_by_status {World} (env : Env World)
  (response : Response) (st : State World) :
  ((400 <= status response)%Z ->
     trace (snd (resolve env response st)) =
       (trace st ++ [CallErrorHandler (errorHandler (this st)) (status response) response])%list
     /\ fst (resolve env response st) =
          match fst (call_errorHandler env (errorHandler (this st)) (status response) response
                       (this st, world st)) with
          | Return _ => Return (VResponse response)
          | Throw e => Throw e
          end)
  /\ ((status response < 400)%Z ->
     trace (snd (resolve env response st)) =
       (trace st ++ [CallResolver (resolver (this st)) response])%list
     /\ fst (resolve env response st) =
          fst (call_resolver env (resolver (this st)) response (this st, world st))).
Proof.
  split; intros H.
  - apply Z.leb_le in H. split.
    + now rewrite resolve_trace, H.
    + rewrite resolve_run, H.
      rewrite <- (call_result (CallErrorHandler (errorHandler (this st)) (status response) response)).
      now destruct (call _ _ st) as [[a | e] st'].
  - apply Z.leb_gt in H. split.
    + now rewrite resolve_trace, H.
    + rewrite resolve_run, H. apply call_result.
Qed.

(** C3 on two responses of the test environment, 404 and 200. *)
Lemma resolve_by_status_run :
  (let r := {| response_ref := 1; status := 404 |} in
   trace (snd (resolve Demo.env r Demo.start)) = [CallErrorHandler ConsoleError 404 r]
   /\ fst (resolve Demo.env r Demo.start) = Return (VResponse r))
  /\ (let r := {| response_ref := 2; status := 200 |} in
      trace (snd (resolve Demo.env r Demo.start)) = [CallResolver ResJson r]
      /\ fst (resolve Demo.env r Demo.start) = Return (VStr "parsed")).
Proof.
  split.
  - exact (proj1 (resolve_by_status Demo.env {| response_ref := 1; status := 404 |} Demo.start)
             ltac:(simpl; lia)).
  - exact (proj2 (resolve_by_status Demo.env {| response_ref := 2; status := 200 |} Demo.start)
             ltac:(simpl; lia)).
Defined.

(** ** C8: the content type of a new client *)

(** C8: the [contentType] of a constructed client is never empty; it is
    the option's value when that is a non-empty string, and
    [application/json] when the options, or the option, are left out or
    the option is the empty string. *)
Theorem constructor_contentType (root : string) (options : option Options.ResterOptions) :
  contentType (constructor root options) <> EmptyString
  /\ (forall o s, options = Some o -> Options.contentType o = Some s -> s <> EmptyString ->
        contentType (constructor root options) = s)
  /\ (options = None -> contentType (constructor root options) = "application/json")
  /\ (forall o, options = Some o ->
        Options.contentType o = None \/ Options.contentType o = Some EmptyString ->
        contentType (constructor root options) = "application/json").
Proof.
  repeat split.
  - simpl. unfold or_string.
    destruct options as [o |]; [| discriminate].
    destruct (Options.contentType o) as [s |]; [| discriminate].
    destruct (String.eqb_spec s EmptyString); [discriminate | assumption].
  - intros o s -> Hs Hne. simpl. rewrite Hs. unfold or_string.
    destruct (String.eqb_spec s EmptyString); [contradiction | reflexivity].
  - intros ->. reflexivity.
  - intros o -> [H | H]; simpl; rewrite H; reflexivity.
Qed.

(** C8 on three sets of options: a content type, an empty one, none. *)
Lemma constructor_contentType_run :
  let with_type (t : option string) :=
    {| Options.authorization := None; Options.contentType := t;
       Options.resolver := None; Options.errorHandler := None;
       Options.fetchOptions := None |} in
  contentType (constructor "https://api.test" (Some (with_type (Some "text/xml")))) = "text/xml"
  /\ contentType (constructor "https://api.test" (Some (with_type (Some EmptyString))))
     = "application/json"
  /\ contentType (constructor "https://api.test" None) = "application/json".
Proof.
  intros with_type. repeat apply conj.
  - apply (proj1 (proj2 (constructor_contentType "https://api.test"
                           (Some (with_type (Some "text/xml")))))
             (with_type (Some "text/xml")) "text/xml" eq_refl eq_refl).
    discriminate.
  - apply (proj2 (proj2 (proj2 (constructor_contentType "https://api.test"
                                  (Some (with_type (Some EmptyString))))))
             (with_type (Some EmptyString)) eq_refl).
    now right.
  - exact (proj1 (proj2 (proj2 (constructor_contentType "https://api.test" None))) eq_refl).
Defined.

(** ** C2: the three layers of the headers *)

(** C2: when the authorization is resolved, [request] calls [fetch] with
    headers in which a name has the value the per-call options' headers
    give it; failing that, [Content-Type] has the client's content type
    and [Authorization] the resolved authorization; failing that, the
    name has the value of the client's default [fetchOptions] headers. *)
Theorem request_header_layers {World} (env : Env World)
  (url : string + URL) (options : value) (st : State World)
  (auth : string) (st1 : State World) :
  getAuthorization env st = (Return auth, st1) ->
  exists init,
    fetch_calls (trace (snd (request env url options st))) =
      (fetch_calls (trace st) ++ [(url_toString url, init)])%list
    /\ forall name,
         sent_header init name =
           match Js.lookup name (Js.own_props (Js.member options "headers")) with
           | Some v => Some v
           | None =>
               if String.eqb name "Content-Type" then Some (VStr (contentType (this st)))
               else if String.eqb name "Authorization" then Some (VStr auth)
               else Js.lookup name (Js.own_props (Js.member (fetchOptions (this st)) "headers"))
           end.
Proof.
  intros Hauth. eexists. split; [exact (request_fetch_calls env url options st auth st1 Hauth) |].
  intros name.
  rewrite sent_header_request_init, lookup_request_headers, member_default.
  destruct (Js.lookup name _); [reflexivity |].
  destruct (String.eqb_spec name "Content-Type") as [-> | _]; [reflexivity |].
  reflexivity.
Qed.

(** C2 on the test client, whose default headers name [Accept],
    [Content-Type] and [X-Trace]: with a per-call [Content-Type] that one
    is sent, without it the client's content type, not the default. *)
Lemma request_header_layers_run :
  (exists init,
     fetch_calls (trace (snd (request Demo.env (inl "https://api.test/a")
                                (VObj [("headers", VObj [("Content-Type", VStr "text/csv")])])
                                Demo.layered))) =
       [("https://api.test/a", init)]
     /\ sent_header init "Content-Type" = Some (VStr "text/csv")
     /\ sent_header init "Authorization" = Some (VStr "Bearer 0")
     /\ sent_header init "Accept" = Some (VStr "text/html"))
  /\ (exists init,
        fetch_calls (trace (snd (request Demo.env (inl "https://api.test/a") VUndefined
                                   Demo.layered))) =
          [("https://api.test/a", init)]
        /\ sent_header init "Content-Type" = Some (VStr "application/json")
        /\ sent_header init "Authorization" = Some (VStr "Bearer 0")
        /\ sent_header init "Accept" = Some (VStr "text/html")).
Proof.
  split.
  - destruct (request_header_layers Demo.env (inl "https://api.test/a")
                (VObj [("headers", VObj [("Content-Type", VStr "text/csv")])])
                Demo.layered "Bearer 0" (snd (getAuthorization Demo.env Demo.layered)) eq_refl)
      as (init & Hcall & Hname).
    exists init. repeat apply conj.
    + exact Hcall.
    + exact (Hname "Content-Type").
    + exact (Hname "Authorization").
    + exact (Hname "Accept").
  - destruct (request_header_layers Demo.env (inl "https://api.test/a") VUndefined
                Demo.layered "Bearer 0" (snd (getAuthorization Demo.env Demo.layered)) eq_refl)
      as (init & Hcall & Hname).
    exists init. repeat apply conj.
    + exact Hcall.
    + exact (Hname "Content-Type").
    + exact (Hname "Authorization").
    + exact (Hname "Accept").
Defined.

(** ** C7: the authorization of a request *)

Section Authorization.

Context {World : Type} (env : Env World).

(** The [Authorization] header of the [fetch] call, unless the per-call
    headers name one. *)
Lemma request_sends_authorization (url : string + URL) (options : value)
  (st : State World) (auth : string) (st1 : State World) :
  getAuthorization env st = (Return auth, st1) ->
  Js.lookup "Authorization" (Js.own_props (Js.member options "headers")) = None ->
  exists init,
    fetch_calls (trace (snd (request env url options st))) =
      (fetch_calls (trace st) ++ [(url_toString url, init)])%list
    /\ sent_header init "Authorization" = Some (VStr auth).
Proof.
  intros Hauth Hnone. eexists.
  split; [exact (request_fetch_calls env url options st auth st1 Hauth) |].
  now rewrite sent_header_request_init, lookup_request_headers, member_default, Hnone.
Qed.

Lemma getAuthorization_resolver (st : State World) (f : closure) (a : string) :
  authorization (this st) = AuthResolver f ->
  fst (call_authorization env f (this st, world st)) = Return a ->
  getAuthorization env st = (Return a, snd (getAuthorization env st)).
Proof.
  intros Hf Ha.
  pose proof (call_result (CallAuthorization f) (call_authorization env f) st) as Hr.
  rewrite getAuthorization_run, Hf. rewrite Ha in Hr.
  destruct (call _ _ st) as [r st']. simpl in *. now subst.
Qed.

End Authorization.

(** C7: [request] calls the authorization resolver once when the
    client's authorization is a function and not at all when it is a
    string; the [Authorization] header it sends is the string as it is,
    or the string the function returned, unless the per-call headers
    name one; and of two requests in a row, each sends what its own call
    of the resolver returned, so distinct returns give distinct
    headers. *)
Theorem request_resolves_authorization {World} (env : Env World)
  (url : string + URL) (options : value) (st : State World) :
  let st' := snd (request env url options st) in
  let free (o : value) :=
    Js.lookup "Authorization" (Js.own_props (Js.member o "headers")) = None in
  authorization_calls (trace st') =
    (authorization_calls (trace st)
     ++ match authorization (this st) with
        | AuthString _ => []
        | AuthResolver f => [f]
        end)%list
  /\ (forall s, authorization (this st) = AuthString s -> free options ->
        exists init,
          fetch_calls (trace st') = (fetch_calls (trace st) ++ [(url_toString url, init)])%list
          /\ sent_header init "Authorization" = Some (VStr s))
  /\ (forall f a, authorization (this st) = AuthResolver f ->
        fst (call_authorization env f (this st, world st)) = Return a -> free options ->
        exists init,
          fetch_calls (trace st') = (fetch_calls (trace st) ++ [(url_toString url, init)])%list
          /\ sent_header init "Authorization" = Some (VStr a))
  /\ (forall f a1 a2 url2 options2,
        authorization (this st) = AuthResolver f ->
        authorization (this st') = AuthResolver f ->
        fst (call_authorization env f (this st, world st)) = Return a1 ->
        fst (call_authorization env f (this st', world st')) = Return a2 ->
        a1 <> a2 -> free options -> free options2 ->
        exists init1 init2,
          fetch_calls (trace (snd (request env url2 options2 st'))) =
            (fetch_calls (trace st)
             ++ [(url_toString url, init1); (url_toString url2, init2)])%list
          /\ sent_header init1 "Authorization" = Some (VStr a1)
          /\ sent_header init2 "Authorization" = Some (VStr a2)
          /\ sent_header init1 "Authorization" <> sent_header init2 "Authorization").
Proof.
  intros st' free. repeat apply conj.
  - apply request_authorization_calls.
  - intros s Hs Hfree.
    apply (request_sends_authorization env url options st s st); [| exact Hfree].
    now rewrite getAuthorization_run, Hs.
  - intros f a Hf Ha Hfree.
    exact (request_sends_authorization env url options st a _
             (getAuthorization_resolver env st f a Hf Ha) Hfree).
  - intros f a1 a2 url2 options2 Hf Hf' Ha1 Ha2 Hne Hfree Hfree2.
    destruct (request_sends_authorization env url options st a1 _
                (getAuthorization_resolver env st f a1 Hf Ha1) Hfree) as (init1 & Hc1 & Hh1).
    destruct (request_sends_authorization env url2 options2 st' a2 _
                (getAuthorization_resolver env st' f a2 Hf' Ha2) Hfree2) as (init2 & Hc2 & Hh2).
    exists init1, init2. repeat apply conj; try assumption.
    + rewrite Hc2. unfold st'. rewrite Hc1, <- app_assoc. reflexivity.
    + rewrite Hh1, Hh2. congruence.
Qed.

(** C7 on the test client, whose resolver counts its calls: two requests
    in a row send [Bearer 0] and then [Bearer 1]. *)
Lemma request_resolves_authorization_run :
  let st' := snd (request Demo.env (inl "https://api.test/a") VUndefined Demo.start) in
  exists init1 init2,
    fetch_calls (trace (snd (request Demo.env (inl "https://api.test/b") VUndefined st'))) =
      [("https://api.test/a", init1); ("https://api.test/b", init2)]
    /\ sent_header init1 "Authorization" = Some (VStr "Bearer 0")
    /\ sent_header init2 "Authorization" = Some (VStr "Bearer 1")
    /\ sent_header init1 "Authorization" <> sent_header init2 "Authorization".
Proof.
  refine (proj2 (proj2 (proj2
            (request_resolves_authorization Demo.env (inl "https://api.test/a") VUndefined
               Demo.start)))
            (UserFn 0) "Bearer 0" "Bearer 1" (inl "https://api.test/b") VUndefined
            eq_refl eq_refl eq_refl eq_refl _ eq_refl eq_refl).
  discriminate.
Defined.

(** ** C10: the two headers that are always sent *)

(** C10: the headers of the [fetch] call of a request hold both a
    [Content-Type] and an [Authorization]; where the per-call headers do
    not name them they are the client's content type and the resolved
    authorization; and a client constructed without an authorization
    sends the empty string. *)
Theorem request_sends_both_headers {World} (env : Env World)
  (url : string + URL) (options : value) (st : State World) :
  let st' := snd (request env url options st) in
  let per_call := Js.own_props (Js.member options "headers") in
  (forall auth st1, getAuthorization env st = (Return auth, st1) ->
     exists init,
       fetch_calls (trace st') = (fetch_calls (trace st) ++ [(url_toString url, init)])%list
       /\ sent_header init "Content-Type" <> None
       /\ sent_header init "Authorization" <> None
       /\ (Js.lookup "Content-Type" per_call = None ->
             sent_header init "Content-Type" = Some (VStr (contentType (this st))))
       /\ (Js.lookup "Authorization" per_call = None ->
             sent_header init "Authorization" = Some (VStr auth)))
  /\ (forall root o,
        this st = constructor root o ->
        o = None \/ (exists r, o = Some r /\ Options.authorization r = None) ->
        exists init,
          fetch_calls (trace st') = (fetch_calls (trace st) ++ [(url_toString url, init)])%list
          /\ (Js.lookup "Authorization" per_call = None ->
                sent_header init "Authorization" = Some (VStr EmptyString))).
Proof.
  intros st' per_call.
  assert (Hgen : forall auth st1, getAuthorization env st = (Return auth, st1) ->
     exists init,
       fetch_calls (trace st') = (fetch_calls (trace st) ++ [(url_toString url, init)])%list
       /\ sent_header init "Content-Type" <> None
       /\ sent_header init "Authorization" <> None
       /\ (Js.lookup "Content-Type" per_call = None ->
             sent_header init "Content-Type" = Some (VStr (contentType (this st))))
       /\ (Js.lookup "Authorization" per_call = None ->
             sent_header init "Authorization" = Some (VStr auth))).
  { intros auth st1 Hauth. eexists.
    split; [exact (request_fetch_calls env url options st auth st1 Hauth) |].
    rewrite !sent_header_request_init, !lookup_request_headers, !member_default.
    fold per_call. simpl.
    repeat apply conj.
    - destruct (Js.lookup "Content-Type" per_call); discriminate.
    - destruct (Js.lookup "Authorization" per_call); discriminate.
    - now intros ->.
    - now intros ->. }
  split; [exact Hgen |].
  intros root o Hthis Ho.
  assert (Hauth : getAuthorization env st = (Return EmptyString, st)).
  { rewrite getAuthorization_run, Hthis.
    destruct Ho as [-> | (r & -> & Hr)]; simpl; [| rewrite Hr]; reflexivity. }
  destruct (Hgen _ _ Hauth) as (init & Hc & _ & _ & _ & Ha).
  exists init. split; assumption.
Qed.

(** C10 on a test client built from the root alone. *)
Lemma request_sends_both_headers_run :
  exists init,
    fetch_calls (trace (snd (request Demo.env (inl "https://api.test/a") VUndefined Demo.plain))) =
      [("https://api.test/a", init)]
    /\ (Js.lookup "Authorization" (Js.own_props (Js.member VUndefined "headers")) = None ->
          sent_header init "Authorization" = Some (VStr EmptyString)).
Proof.
  exact (proj2 (request_sends_both_headers Demo.env (inl "https://api.test/a") VUndefined
                  Demo.plain)
           "https://api.test" None eq_refl (or_introl eq_refl)).
Defined.

(** ** C9: the fields of the client *)

Section Frame.

Context {World : Type} (env : Env World).

Hypothesis Henv : env_keeps_client env.

Lemma bind_keeps {A B} (m : M World A) (k : A -> M World B) :
  (forall st, this (snd (m st)) = this st) ->
  (forall a st, this (snd (k a st)) = this st) ->
  forall st, this (snd (bind m k st)) = this st.
Proof.
  intros Hm Hk st. unfold bind. specialize (Hm st).
  destruct (m st) as [[a | e] st1]; simpl in *; [| assumption].
  now rewrite Hk.
Qed.

Lemma call_keeps {A} (ev : event) (f : host World A) :
  keeps_client f -> forall st, this (snd (call ev f st)) = this st.
Proof. intros Hf st. rewrite call_this. apply Hf. Qed.

Ltac keeps_step :=
  first [ apply bind_keeps; intros
        | apply call_keeps; apply Henv
        | reflexivity ].

Lemma getAuthorization_keeps (st : State World) :
  this (snd (getAuthorization env st)) = this st.
Proof.
  revert st. unfold getAuthorization. keeps_step; [keeps_step |].
  destruct (authorization a); keeps_step.
Qed.

Lemma resolve_keeps (response : Response) (st : State World) :
  this (snd (resolve env response st)) = this st.
Proof.
  revert st. unfold resolve. keeps_step; [keeps_step |].
  destruct (400 <=? status response)%Z; repeat keeps_step.
Qed.

Lemma createURL_keeps (uri : string) (st : State World) :
  this (snd (createURL env uri st)) = this st.
Proof. now rewrite createURL_run. Qed.

Lemma request_keeps (url : string + URL) (options : value) (st : State World) :
  this (snd (request env url options st)) = this st.
Proof.
  revert st. unfold request. cbv zeta.
  keeps_step; [keeps_step |].
  keeps_step; [apply getAuthorization_keeps |].
  keeps_step; [keeps_step | apply resolve_keeps].
Qed.

Lemma run_helper_keeps (h : helper) (st : State World) :
  this (snd (run_helper env h st)) = this st.
Proof.
  revert st. destruct h; simpl; unfold get, post, delete, put; cbv zeta;
    (apply bind_keeps; [intros; apply createURL_keeps |]); intros u st;
    try apply request_keeps.
  destruct (keys_defined _); [apply request_keeps | reflexivity].
Qed.

End Frame.

(** C9: when the callbacks and [fetch] leave the client's fields alone,
    every field of the client, [root], [authorization], [contentType],
    [fetchOptions], [resolver] and [errorHandler], is after a call of a
    public operation what it was before. *)
Theorem operations_keep_client {World} (env : Env World) :
  env_keeps_client env ->
  forall (op : operation) (st : State World),
    this (run_operation env op st) = this st.
Proof.
  intros Henv op st. destruct op; simpl.
  - now apply run_helper_keeps.
  - now apply request_keeps.
  - now apply resolve_keeps.
  - now apply getAuthorization_keeps.
  - apply createURL_keeps.
Qed.

(** C9 on the test environment, for a [post]. *)
Lemma operations_keep_client_run :
  this (run_operation Demo.env (Helper (Post "items" (VObj [("id", VNum 2)]) VUndefined))
          Demo.start)
  = this Demo.start.
Proof.
  apply (operations_keep_client Demo.env).
  repeat split.
Defined.

(** ** The verb helpers *)

Section Helpers.

Import Js.

Context {World : Type} (env : Env World).

(** Each helper builds the URL and hands [request] its own entries, the
    spread of its options and, last, its method. *)
Lemma run_helper_run (h : helper) (st : State World) :
  run_helper env h st =
    match new_URL env (createURL_string (root (this st)) (helper_uri h)) with
    | Some u =>
        if helper_defined h then
          request env (inr (helper_url h u))
            (VObj (set_prop "method" (VStr (verb h))
                     (spread (helper_base h) (default_arg (helper_options h) (VObj [])))))
            st
        else (Throw TypeError, st)
    | None => (Throw TypeError, st)
    end.
Proof.
  destruct h; simpl; unfold get, post, delete, put, bind; cbv zeta;
    rewrite createURL_run; destruct (new_URL env _); try reflexivity.
  now destruct (keys_defined _).
Qed.

Lemma NoDup_helper_base (h : helper) : NoDup (keys (helper_base h)).
Proof.
  destruct h; simpl; repeat constructor; simpl; tauto.
Qed.

Lemma helper_base_other (h : helper) (k : string) :
  k <> "body" -> lookup k (helper_base h) = None.
Proof.
  intros Hk. apply String.eqb_neq in Hk.
  destruct h; simpl; unfold set_prop; simpl; now rewrite ?Hk.
Qed.

(** What [request] reads from the object a helper hands it. *)
Lemma lookup_passed (h : helper) (k : string) :
  lookup k (own_props (VObj (set_prop "method" (VStr (verb h))
                               (spread (helper_base h)
                                  (default_arg (helper_options h) (VObj []))))))
  = if String.eqb k "method" then Some (VStr (verb h))
    else match lookup k (own_props (helper_options h)) with
         | Some v => Some v
         | None => lookup k (helper_base h)
         end.
Proof.
  simpl. rewrite lookup_obj_literal.
  - now rewrite lookup_set_prop, lookup_spread, own_props_default.
  - apply NoDup_keys_set_prop, NoDup_keys_spread, NoDup_helper_base.
Qed.

Lemma member_passed_headers (h : helper) :
  member (VObj (set_prop "method" (VStr (verb h))
                  (spread (helper_base h) (default_arg (helper_options h) (VObj [])))))
         "headers"
  = member (helper_options h) "headers".
Proof.
  unfold member. rewrite lookup_passed. simpl.
  rewrite helper_base_other by discriminate.
  now destruct (lookup "headers" (own_props (helper_options h))).
Qed.

(** The one [fetch] call of a helper. *)
Lemma run_helper_fetch_calls (h : helper) (st : State World) (u : URL)
  (auth : string) (st1 : State World) :
  new_URL env (createURL_string (root (this st)) (helper_uri h)) = Some u ->
  helper_defined h = true ->
  getAuthorization env st = (Return auth, st1) ->
  fetch_calls (trace (snd (run_helper env h st))) =
    (fetch_calls (trace st)
     ++ [(Url.toString (helper_url h u),
          request_init (this st) auth
            (VObj (set_prop "method" (VStr (verb h))
                     (spread (helper_base h)
                        (default_arg (helper_options h) (VObj []))))))])%list.
Proof.
  intros Hu Hd Hauth. rewrite run_helper_run, Hu, Hd.
  exact (request_fetch_calls env _ _ st auth st1 Hauth).
Qed.

End Helpers.

(** ** C4: what the per-call options of a helper override *)

(** C4, where the code departs from it: the helpers document their
    options as overriding all other options, and [get] with the options
    [{method: "HEAD"}] hands [fetch] the method [GET], not [HEAD]. *)
Lemma get_keeps_its_verb :
  map (fun call => Js.lookup "method" (snd call))
      (fetch_calls (trace (snd (run_helper Demo.env
                                  (Get "items" VUndefined (VObj [("method", VStr "HEAD")]))
                                  Demo.start))))
  = [Some (VStr "GET")].
Proof. reflexivity. Qed.

(** What a verb helper hands to [fetch], as the code is written: the
    method entry is written after the spread of the per-call options,
    so it is the helper's verb whatever the options name; every other
    entry of the per-call options, the body among them, goes out as the
    options give it, and so does every header of their headers. *)
Lemma helper_options_override {World} (env : Env World) (h : helper)
  (st : State World) (u : URL) (auth : string) (st1 : State World) :
  new_URL env (createURL_string (root (this st)) (helper_uri h)) = Some u ->
  helper_defined h = true ->
  getAuthorization env st = (Return auth, st1) ->
  exists init,
    fetch_calls (trace (snd (run_helper env h st))) =
      (fetch_calls (trace st) ++ [(Url.toString (helper_url h u), init)])%list
    /\ Js.lookup "method" init = Some (VStr (verb h))
    /\ (forall k v, k <> "method" -> k <> "headers" ->
          Js.lookup k (Js.own_props (helper_options h)) = Some v ->
          Js.lookup k init = Some v)
    /\ (forall name v,
          Js.lookup name (Js.own_props (Js.member (helper_options h) "headers")) = Some v ->
          sent_header init name = Some v).
Proof.
  intros Hu Hd Hauth. eexists.
  split; [exact (run_helper_fetch_calls env h st u auth st1 Hu Hd Hauth) |].
  repeat apply conj.
  - rewrite lookup_request_init by discriminate. now rewrite lookup_passed.
  - intros k v Hm Hh Hk. rewrite lookup_request_init by assumption.
    rewrite lookup_passed. apply String.eqb_neq in Hm. now rewrite Hm, Hk.
  - intros name v Hv.
    now rewrite sent_header_request_init, lookup_request_headers, member_passed_headers, Hv.
Qed.

(** On the test client: a [delete] with a body, a method and a header
    of its own. *)
Lemma helper_options_override_run :
  let options := VObj [("body", VStr "x"); ("method", VStr "PATCH");
                       ("headers", VObj [("Content-Type", VStr "text/plain")])] in
  exists init,
    fetch_calls (trace (snd (run_helper Demo.env (Delete "items/4" options) Demo.start))) =
      [("https://api.test/items/4", init)]
    /\ Js.lookup "method" init = Some (VStr "DELETE")
    /\ (forall k v, k <> "method" -> k <> "headers" ->
          Js.lookup k (Js.own_props options) = Some v -> Js.lookup k init = Some v)
    /\ (forall name v,
          Js.lookup name (Js.own_props (Js.member options "headers")) = Some v ->
          sent_header init name = Some v).
Proof.
  exact (helper_options_override Demo.env
           (Delete "items/4"
              (VObj [("body", VStr "x"); ("method", VStr "PATCH");
                     ("headers", VObj [("Content-Type", VStr "text/plain")])]))
           Demo.start
           {| url_base := "https://api.test/items/4"; url_query := None;
              url_fragment := None; url_params := [] |}
           "Bearer 0" (snd (getAuthorization Demo.env Demo.start))
           eq_refl eq_refl eq_refl).
Defined.

(** ** C5: the body of [post] and [put] *)

Section Quote.

Import Js.

Lemma length_append (s1 s2 : string) :
  String.length (s1 ++ s2) = String.length s1 + String.length s2.
Proof. induction s1 as [| c s1 IH]; simpl; [reflexivity | now rewrite IH]. Qed.

Lemma append_assoc (a b c : string) : (a ++ b) ++ c = a ++ (b ++ c).
Proof. induction a as [| x a IH]; simpl; [reflexivity | now rewrite IH]. Qed.

Lemma append_nil_r (a : string) : a ++ EmptyString = a.
Proof. induction a as [| x a IH]; simpl; [reflexivity | now rewrite IH]. Qed.

Lemma length_quote_json_char (c : ascii) : 1 <= String.length (quote_json_char c).
Proof.
  unfold quote_json_char.
  repeat match goal with |- context [if ?b then _ else _] => destruct b end;
    simpl; lia.
Qed.

Lemma length_quote_json_body (s : string) :
  String.length s <= String.length (quote_json_body s).
Proof.
  induction s as [| c s IH]; simpl; [lia |].
  rewrite length_append. pose proof (length_quote_json_char c). lia.
Qed.

(** Quoting adds the two double quotes, so it never gives the string
    back. *)
Lemma quote_json_changes (s : string) : quote_json s <> s.
Proof.
  intros H. apply (f_equal String.length) in H.
  unfold quote_json in H. simpl in H. rewrite length_append in H. simpl in H.
  pose proof (length_quote_json_body s). lia.
Qed.

End Quote.

(** ** The JSON text of a value, read back *)

Section Json.

Import Js.

(** *** Strings *)

Lemma unquote_char (c : ascii) (rest : string) :
  unquote_body (quote_json_char c ++ rest) = cons_char c (unquote_body rest).
Proof.
  destruct c as [[] [] [] [] [] [] [] []]; reflexivity.
Qed.

Lemma unquote_quote (s rest : string) :
  unquote_body (quote_json_body s ++ String dquote rest) = Some (s, rest).
Proof.
  induction s as [| c s IH]; [reflexivity |].
  cbn [quote_json_body]. rewrite append_assoc, unquote_char, IH. reflexivity.
Qed.

(** *** Numbers *)

Lemma span_digits_uint (u : Decimal.uint) (rest : string) :
  terminated rest = true ->
  span_digits (NilEmpty.string_of_uint u ++ rest) = (NilEmpty.string_of_uint u, rest).
Proof.
  intros Hrest. induction u; cbn [NilEmpty.string_of_uint append span_digits];
    try (rewrite IHu; reflexivity).
  destruct rest as [| c t]; [reflexivity |].
  simpl in Hrest |- *. apply Bool.negb_true_iff in Hrest. now rewrite Hrest.
Qed.

Lemma string_of_N_digits (m : N) :
  exists u, string_of_N m = NilEmpty.string_of_uint u /\ u <> Decimal.Nil.
Proof.
  unfold string_of_N, NilZero.string_of_uint.
  destruct (N.to_uint m) eqn:E;
    try (eexists; split; [reflexivity | discriminate]).
  exists (Decimal.D0 Decimal.Nil). split; [reflexivity | discriminate].
Qed.

Lemma span_digits_string_of_N (m : N) (rest : string) :
  terminated rest = true ->
  span_digits (string_of_N m ++ rest) = (string_of_N m, rest).
Proof.
  intros Hrest. destruct (string_of_N_digits m) as (u & -> & _).
  now apply span_digits_uint.
Qed.

Lemma uint_of_string_of_N (m : N) :
  exists u, NilZero.uint_of_string (string_of_N m) = Some u /\ N.of_uint u = m.
Proof.
  unfold string_of_N.
  destruct (NilZero.usu_gen (N.to_uint m)) as [H | H]; rewrite H.
  - eexists. split; [reflexivity |]. apply DecimalN.Unsigned.of_to.
  - exists Decimal.zero. split; [reflexivity |].
    rewrite <- (DecimalN.Unsigned.of_to m).
    destruct (N.to_uint m) eqn:E; try reflexivity;
      rewrite NilZero.usu in H by discriminate; injection H as H; now rewrite H.
Qed.

(** The first character of a number's text is a digit. *)
Lemma string_of_N_head (m : N) (rest : string) :
  exists c t, string_of_N m ++ rest = String c t /\ is_digit c = true.
Proof.
  destruct (string_of_N_digits m) as (u & -> & Hu).
  destruct u; try contradiction; cbn; eexists; eexists; split; reflexivity.
Qed.

Lemma digit_is_no_sign (c : ascii) :
  is_digit c = true ->
  Ascii.eqb c "-" = false /\ Ascii.eqb c dquote = false /\ Ascii.eqb c "{" = false
  /\ Ascii.eqb "n" c = false /\ Ascii.eqb "t" c = false /\ Ascii.eqb "f" c = false.
Proof.
  destruct c as [[] [] [] [] [] [] [] []]; try discriminate; intros _; repeat split.
Qed.

Lemma parse_unsigned (m : N) (rest : string) :
  terminated rest = true ->
  parse_number (string_of_N m ++ rest) = Some (Z.of_N m, rest).
Proof.
  intros Hrest. unfold parse_number.
  destruct (string_of_N_head m rest) as (c & t & E & Hc).
  pose proof (span_digits_string_of_N m rest Hrest) as Hspan.
  rewrite E in Hspan |- *.
  rewrite (proj1 (digit_is_no_sign c Hc)), Hspan.
  destruct (uint_of_string_of_N m) as (u & -> & Hu).
  cbv zeta. rewrite Hu, String.eqb_refl. reflexivity.
Qed.

Lemma string_of_Z_cases (n : Z) :
  string_of_Z n =
    match n with
    | Zneg p => String "-" (string_of_N (Npos p))
    | _ => string_of_N (Z.to_N n)
    end.
Proof. destruct n; reflexivity. Qed.

(** The digits of an integer, read back. *)
Lemma parse_number_string_of_Z (n : Z) (rest : string) :
  terminated rest = true ->
  parse_number (string_of_Z n ++ rest) = Some (n, rest).
Proof.
  intros Hrest. rewrite string_of_Z_cases. destruct n as [| p | p].
  - exact (parse_unsigned 0 rest Hrest).
  - exact (parse_unsigned (Npos p) rest Hrest).
  - pose proof (parse_unsigned (Npos p) rest Hrest) as H.
    unfold parse_number in H |- *. cbn [append].
    change (Ascii.eqb "-" "-") with true. cbv iota.
    destruct (string_of_N_head (Npos p) rest) as (c & t & E & Hc).
    rewrite E in H. rewrite (proj1 (digit_is_no_sign c Hc)) in H. rewrite <- E in H.
    destruct (span_digits (string_of_N (N.pos p) ++ rest)) as [digits rest'].
    destruct (NilZero.uint_of_string digits) as [u |]; [| discriminate].
    cbv zeta in H |- *.
    destruct (String.eqb (string_of_N (N.of_uint u)) digits); [| discriminate].
    injection H as Hn ->. now rewrite Hn.
Qed.

End Json.

Section JsonObjects.

Import Js.

(** *** Objects: the keys decide where a property goes *)

Section Natural.

Context {A B : Type} (f : A -> B).

Implicit Types (o t l : props A) (k : string) (v : A).

Lemma lookup_map_values k o :
  lookup k (map_values f o) = option_map f (lookup k o).
Proof.
  induction o as [| [k0 v0] o IH]; simpl; [reflexivity |].
  now destruct (String.eqb k k0).
Qed.

Lemma has_key_map_values k o : has_key k (map_values f o) = has_key k o.
Proof. unfold has_key. rewrite lookup_map_values. now destruct (lookup k o). Qed.

Lemma update_map_values k v o :
  update k (f v) (map_values f o) = map_values f (update k v o).
Proof.
  induction o as [| [k0 v0] o IH]; simpl; [reflexivity |].
  destruct (String.eqb k k0); simpl; [reflexivity | now rewrite IH].
Qed.

Lemma create_map_values k v o :
  create k (f v) (map_values f o) = map_values f (create k v o).
Proof.
  induction o as [| [k0 v0] o IH]; simpl; [reflexivity |].
  destruct (array_index k) as [i |], (array_index k0) as [j |];
    try destruct (N.ltb i j); simpl; rewrite ?IH; reflexivity.
Qed.

Lemma set_prop_map_values k v o :
  set_prop k (f v) (map_values f o) = map_values f (set_prop k v o).
Proof.
  unfold set_prop. rewrite has_key_map_values.
  destruct (has_key k o); [apply update_map_values | apply create_map_values].
Qed.

Lemma define_all_map_values t l :
  define_all (map_values f t) (map_values f l) = map_values f (define_all t l).
Proof.
  unfold define_all. revert t.
  induction l as [| [k v] l IH]; intros t; simpl; [reflexivity |].
  now rewrite set_prop_map_values, IH.
Qed.

Lemma obj_literal_map_values l :
  obj_literal (map_values f l) = map_values f (obj_literal l).
Proof. exact (define_all_map_values [] l). Qed.

End Natural.

(** Every property of the object built comes from the target or from
    the definitions. *)
Lemma in_set_prop {V} (k : string) (v : V) (o : props V) (kv : string * V) :
  In kv (set_prop k v o) -> kv = (k, v) \/ In kv o.
Proof.
  unfold set_prop. destruct (has_key k o).
  - induction o as [| [k0 v0] o IH]; simpl; [tauto |].
    destruct (String.eqb k k0); simpl; intuition.
  - induction o as [| [k0 v0] o IH]; simpl; [intuition |].
    destruct (array_index k) as [i |], (array_index k0) as [j |];
      try destruct (N.ltb i j); simpl; intuition.
Qed.

Lemma in_define_all {V} (t l : props V) (kv : string * V) :
  In kv (define_all t l) -> In kv t \/ In kv l.
Proof.
  unfold define_all. revert t.
  induction l as [| [k v] l IH]; intros t; simpl; [tauto |].
  intros H. destruct (IH _ H) as [H' | H']; [| tauto].
  destruct (in_set_prop k v t kv H') as [-> | H'']; tauto.
Qed.

(** *** Induction on values, through the properties of objects *)

Lemma value_deep_ind (P : value -> Prop) :
  P VUndefined -> P VNull -> (forall b, P (VBool b)) -> (forall n, P (VNum n)) ->
  (forall s, P (VStr s)) ->
  (forall l, Forall (fun kv => P (snd kv)) l -> P (VObj l)) ->
  (forall r, P (VResponse r)) ->
  forall v, P v.
Proof.
  intros Hu Hn Hb Hz Hs Ho Hr.
  fix IH 1. intros [| | b | n | s | l | r];
    [exact Hu | exact Hn | apply Hb | apply Hz | apply Hs | | apply Hr].
  apply Ho. induction l as [| [k x] l IHl]; constructor; [apply IH | exact IHl].
Qed.

Lemma json_serialize_obj (l : list (string * value)) :
  json_serialize (VObj l) =
    Some ("{" ++ String.concat "," (json_members (obj_literal (map_values json_serialize l)))
          ++ "}").
Proof.
  cbn [json_serialize].
  match goal with
  | |- context [obj_literal (?g l)] =>
      assert (E : forall l0, g l0 = map_values json_serialize l0)
  end.
  { induction l0 as [| [k x] l0 IH]; [reflexivity |]. cbn. now rewrite IH. }
  now rewrite E.
Qed.

Lemma json_data_obj (l : list (string * value)) :
  json_data (VObj l) = Some (VObj (keep_defined (obj_literal (map_values json_data l)))).
Proof.
  cbn [json_data].
  match goal with
  | |- context [obj_literal (?g l)] =>
      assert (E : forall l0, g l0 = map_values json_data l0)
  end.
  { induction l0 as [| [k x] l0 IH]; [reflexivity |]. cbn. now rewrite IH. }
  now rewrite E.
Qed.

Lemma json_serialize_none (v : value) : json_serialize v = None -> v = VUndefined.
Proof. destruct v as [| | [] | | | |]; simpl; congruence. Qed.

Lemma json_data_none (v : value) : json_data v = None -> v = VUndefined.
Proof. destruct v; simpl; congruence. Qed.

(** *** Members *)

Lemma members_empty (o : props value) :
  json_members (map_values json_serialize o) = [] ->
  keep_defined (map_values json_data o) = [].
Proof.
  induction o as [| [k x] o IH]; [reflexivity |]. cbn.
  destruct (json_serialize x) eqn:E; [discriminate |].
  apply json_serialize_none in E. subst x. exact IH.
Qed.

Lemma concat_cons (m : string) (ms : list string) :
  String.concat "," (m :: ms) =
    match ms with
    | [] => m
    | _ => m ++ "," ++ String.concat "," ms
    end.
Proof. destruct ms; reflexivity. Qed.

Lemma members_parse (o : props value) :
  Forall (fun kv => reads_back (snd kv)) o ->
  forall fuel rest,
    json_members (map_values json_serialize o) <> [] ->
    String.length (String.concat "," (json_members (map_values json_serialize o))) < fuel ->
    parse_members fuel
      (String.concat "," (json_members (map_values json_serialize o)) ++ String "}" rest)
    = Some (keep_defined (map_values json_data o), rest).
Proof.
  induction o as [| [k x] o IH]; intros Hall fuel rest Hne Hlen; [now contradiction Hne |].
  inversion Hall as [| ? ? Hx Ho]; subst. cbn [map_values map fst snd json_members] in *.
  fold (map_values json_serialize o) in *. fold (map_values json_data o).
  destruct (json_serialize x) as [tx |] eqn:Ex.
  - destruct (Hx tx Ex) as (d & Hd & Hparse). simpl in Hx. rewrite Hd. cbn [keep_defined].
    rewrite concat_cons in Hlen |- *.
    destruct fuel as [| fuel]; [lia |].
    destruct (json_members (map_values json_serialize o)) as [| m ms] eqn:Em.
    + rewrite (members_empty o Em).
      unfold quote_json in Hlen |- *. rewrite !append_assoc. cbn [append].
      rewrite !append_assoc. cbn [append parse_members].
      change (Ascii.eqb dquote dquote) with true. cbv iota.
      rewrite unquote_quote. cbn.
      rewrite (Hparse fuel (String "}" rest) eq_refl).
      * reflexivity.
      * cbn [String.length] in Hlen. rewrite !length_append in Hlen.
        cbn [String.length] in Hlen. lia.
    + remember (String.concat "," (m :: ms)) as tl eqn:Etl.
      unfold quote_json in Hlen |- *. rewrite !append_assoc. cbn [append].
      rewrite !append_assoc. cbn [append parse_members].
      change (Ascii.eqb dquote dquote) with true. cbv iota.
      rewrite unquote_quote. cbn.
      cbn [String.length] in Hlen. rewrite !length_append in Hlen.
      cbn [String.length] in Hlen. rewrite !length_append in Hlen.
      cbn [String.length] in Hlen.
      rewrite (Hparse fuel (String "," (tl ++ String "}" rest)) eq_refl) by lia.
      cbn. rewrite IH; [reflexivity | assumption | discriminate | lia].
  - apply json_serialize_none in Ex. subst x. cbn [json_data keep_defined].
    now apply IH.
Qed.

Lemma members_head (o : props value) (rest : string) :
  json_members (map_values json_serialize o) <> [] ->
  exists t, String.concat "," (json_members (map_values json_serialize o)) ++ rest
            = String dquote t.
Proof.
  destruct (json_members (map_values json_serialize o)) as [| m ms] eqn:E;
    [now intros H; contradiction H |].
  intros _. assert (Hm : exists t, m = String dquote t).
  { clear -E. induction o as [| [k x] o IH]; [discriminate |]. cbn in E.
    destruct (json_serialize x); [| now apply IH].
    injection E as <- _. unfold quote_json. cbn. eauto. }
  destruct Hm as (t & ->). rewrite concat_cons. destruct ms; cbn; eauto.
Qed.

(** *** The round trip *)

Lemma reads_back_all (v : value) : reads_back v.
Proof.
  induction v as [| | b | n | s | l IH | r] using value_deep_ind; intros t Ht.
  - discriminate.
  - injection Ht as <-. exists VNull. split; [reflexivity |].
    intros [| fuel] rest _ Hlen; [cbn in Hlen; lia | reflexivity].
  - exists (VBool b). split; [reflexivity |].
    intros [| fuel] rest _ Hlen; [lia |].
    destruct b; injection Ht as <-; reflexivity.
  - injection Ht as <-. exists (VNum n). split; [reflexivity |].
    intros [| fuel] rest Hrest Hlen; [lia |].
    pose proof (parse_number_string_of_Z n rest Hrest) as Hnum.
    assert (Hhead : exists c t, string_of_Z n ++ rest = String c t
                                /\ (is_digit c = true \/ c = "-"%char)).
    { rewrite string_of_Z_cases. destruct n as [| p | p].
      - destruct (string_of_N_head 0 rest) as (c & t & E & Hc); eauto.
      - destruct (string_of_N_head (Npos p) rest) as (c & t & E & Hc); eauto.
      - cbn. eauto. }
    destruct Hhead as (c & t & E & Hc). rewrite E in Hnum |- *.
    cbn [parse_value].
    assert (Htests : Ascii.eqb c dquote = false /\ Ascii.eqb c "{" = false
                     /\ Ascii.eqb "n" c = false /\ Ascii.eqb "t" c = false
                     /\ Ascii.eqb "f" c = false).
    { destruct Hc as [Hc | ->]; [| repeat split].
      destruct (digit_is_no_sign c Hc) as (_ & H1 & H2 & H3 & H4 & H5). tauto. }
    destruct Htests as (H1 & H2 & H3 & H4 & H5).
    rewrite H1, H2. cbn [strip_prefix]. rewrite H3, H4, H5, Hnum. reflexivity.
  - injection Ht as <-. exists (VStr s). split; [reflexivity |].
    intros [| fuel] rest _ Hlen; [lia |].
    unfold quote_json. cbn [append parse_value].
    change (Ascii.eqb dquote dquote) with true. cbv iota.
    rewrite append_assoc. cbn [append]. now rewrite unquote_quote.
  - rewrite json_serialize_obj in Ht. injection Ht as <-.
    rewrite json_data_obj. eexists. split; [reflexivity |].
    rewrite !obj_literal_map_values.
    assert (Hall : Forall (fun kv => reads_back (snd kv)) (obj_literal l)).
    { apply Forall_forall. intros kv Hin.
      destruct (in_define_all [] l kv Hin) as [[] | Hin'].
      exact (proj1 (Forall_forall _ l) IH kv Hin'). }
    set (o := obj_literal l) in *. clearbody o.
    intros [| fuel] rest _ Hlen; [lia |].
    cbn [append String.length] in Hlen |- *. rewrite append_assoc. cbn [append].
    rewrite length_append in Hlen. cbn [String.length] in Hlen.
    destruct (json_members (map_values json_serialize o)) as [| m ms] eqn:Em.
    + rewrite (members_empty o Em). reflexivity.
    + assert (Hne : json_members (map_values json_serialize o) <> [])
        by (rewrite Em; discriminate).
      destruct (members_head o (String "}" rest) Hne) as (t & Et).
      rewrite <- Em. cbn [parse_value]. rewrite Et.
      change (Ascii.eqb "{" dquote) with false.
      change (Ascii.eqb "{" "{") with true.
      change (Ascii.eqb dquote "}") with false. cbv iota.
      rewrite <- Et, (members_parse o Hall fuel rest Hne); [reflexivity |].
      rewrite Em. lia.
  - injection Ht as <-. exists (VObj []). split; [reflexivity |].
    intros [| fuel] rest _ Hlen; [lia | reflexivity].
Qed.

(** Parsing the JSON text of a value gives back its data. *)
Lemma JSON_parse_stringify (v : value) (t : string) :
  json_serialize v = Some t ->
  exists d, json_data v = Some d /\ JSON_parse t = Some d.
Proof.
  intros Ht. destruct (reads_back_all v t Ht) as (d & Hd & Hparse).
  exists d. split; [exact Hd |].
  unfold JSON_parse.
  specialize (Hparse (S (String.length t)) EmptyString eq_refl (Nat.lt_succ_diag_r _)).
  rewrite append_nil_r in Hparse. now rewrite Hparse.
Qed.

End JsonObjects.

(** C5: when the per-call options name no body, [post] sends a string
    body as it is and the JSON text of any other body, and [put] sends
    the JSON text of its body always; the JSON text of a string is the
    string between double quotes, escaped, which is never the string
    itself; and the JSON text of a body is a text that parses, as JSON,
    to the data of that body (for [undefined] there is no text, and
    [undefined] is sent).  The numbers of the body are safe integers. *)
Theorem post_put_body {World} (env : Env World) (uri : string) (body options : value)
  (st : State World) (u : URL) (auth : string) (st1 : State World) :
  new_URL env (createURL_string (root (this st)) uri) = Some u ->
  getAuthorization env st = (Return auth, st1) ->
  Js.lookup "body" (Js.own_props options) = None ->
  Js.safe body = true ->
  (exists init,
     fetch_calls (trace (snd (post env uri body options st))) =
       (fetch_calls (trace st) ++ [(Url.toString u, init)])%list
     /\ Js.lookup "body" init =
          Some (match body with
                | VStr s => VStr s
                | _ => Js.JSON_stringify body
                end))
  /\ (exists init,
        fetch_calls (trace (snd (put env uri body options st))) =
          (fetch_calls (trace st) ++ [(Url.toString u, init)])%list
        /\ Js.lookup "body" init = Some (Js.JSON_stringify body))
  /\ (forall s, Js.JSON_stringify (VStr s) = VStr (Js.quote_json s)
                /\ Js.quote_json s <> s
                /\ Js.JSON_parse (Js.quote_json s) = Some (VStr s))
  /\ match Js.json_data body with
     | Some data =>
         exists text, Js.JSON_stringify body = VStr text /\ Js.JSON_parse text = Some data
     | None => body = VUndefined /\ Js.JSON_stringify body = VUndefined
     end.
Proof.
  intros Hu Hauth Hbody _. repeat apply conj.
  - eexists. split.
    + exact (run_helper_fetch_calls env (Post uri body options) st u auth st1 Hu eq_refl Hauth).
    + rewrite lookup_request_init by discriminate.
      rewrite lookup_passed. simpl. rewrite Hbody.
      now destruct body.
  - eexists. split.
    + exact (run_helper_fetch_calls env (Put uri body options) st u auth st1 Hu eq_refl Hauth).
    + rewrite lookup_request_init by discriminate.
      rewrite lookup_passed. simpl. now rewrite Hbody.
  - intros s. repeat split; [apply quote_json_changes |].
    destruct (JSON_parse_stringify (VStr s) (Js.quote_json s) eq_refl) as (d & Hd & Hp).
    injection Hd as <-. exact Hp.
  - unfold Js.JSON_stringify. destruct (Js.json_serialize body) as [t |] eqn:E.
    + destruct (JSON_parse_stringify body t E) as (d & -> & Hp). eauto.
    + apply json_serialize_none in E. subst body. split; reflexivity.
Qed.

(** C5 on the test client: the string [abc] through [post] and through
    [put], and an object through [put], whose text parses back to it. *)
Lemma post_put_body_run :
  (exists init,
     fetch_calls (trace (snd (post Demo.env "items" (VStr "abc") VUndefined Demo.start))) =
       [("https://api.test/items", init)]
     /\ Js.lookup "body" init = Some (VStr "abc"))
  /\ (exists init,
        fetch_calls (trace (snd (put Demo.env "items" (VStr "abc") VUndefined Demo.start))) =
          [("https://api.test/items", init)]
        /\ Js.lookup "body" init
           = Some (VStr (String Js.dquote ("abc" ++ String Js.dquote EmptyString))))
  /\ (let body := VObj [("id", VNum 2); ("name", VStr "new resource")] in
      exists text,
        Js.JSON_stringify body = VStr text /\ Js.JSON_parse text = Some body).
Proof.
  pose proof (post_put_body Demo.env "items" (VStr "abc") VUndefined Demo.start
                {| url_base := "https://api.test/items"; url_query := None;
                   url_fragment := None; url_params := [] |}
                "Bearer 0" (snd (getAuthorization Demo.env Demo.start))
                eq_refl eq_refl eq_refl eq_refl) as [Hpost [Hput _]].
  pose proof (post_put_body Demo.env "items"
                (VObj [("id", VNum 2); ("name", VStr "new resource")]) VUndefined Demo.start
                {| url_base := "https://api.test/items"; url_query := None;
                   url_fragment := None; url_params := [] |}
                "Bearer 0" (snd (getAuthorization Demo.env Demo.start))
                eq_refl eq_refl eq_refl eq_refl) as [_ [_ [_ Hdata]]].
  split; [exact Hpost |]. split; [exact Hput | exact Hdata].
Defined.

(** ** C6: the query of [get] *)

Section Query.

Import Js.

Lemma append_query_fold (keys : list string) (query : value) (u : URL) :
  let step := fun u key => Url.append u key (to_string (member query key)) in
  let pairs := map (fun key => (key, to_string (member query key))) keys in
  url_base (fold_left step keys u) = url_base u
  /\ url_fragment (fold_left step keys u) = url_fragment u
  /\ url_params (fold_left step keys u) = (url_params u ++ pairs)%list
  /\ (keys <> [] ->
      url_query (fold_left step keys u) =
        if String.eqb (Url.serialize (url_params u ++ pairs)) EmptyString then None
        else Some (Url.serialize (url_params u ++ pairs))).
Proof.
  cbv zeta. revert u. induction keys as [| k ks IH]; intros u; simpl.
  - rewrite app_nil_r. repeat split. congruence.
  - destruct (IH (Url.append u k (to_string (member query k)))) as (Hb & Hf & Hp & Hq).
    simpl in *. rewrite <- app_assoc in Hp, Hq. simpl in Hp, Hq.
    repeat split; try assumption.
    intros _. destruct ks as [| k' ks']; [reflexivity |].
    apply Hq. discriminate.
Qed.

Lemma serialize_not_empty (p : string * string) (l : list (string * string)) :
  Url.serialize (l ++ [p]) <> EmptyString.
Proof.
  unfold Url.serialize. intros H. apply (f_equal String.length) in H.
  revert H. induction l as [| q l IH]; simpl.
  - rewrite !length_append. simpl. lia.
  - destruct (map _ (l ++ [p])) eqn:E.
    + destruct l; discriminate.
    + rewrite !length_append. simpl. lia.
Qed.

Lemma serialize_pairs_not_empty (l pairs : list (string * string)) :
  pairs <> [] -> String.eqb (Url.serialize (l ++ pairs)) EmptyString = false.
Proof.
  intros H. apply String.eqb_neq.
  destruct (exists_last H) as (front & p & ->).
  rewrite app_assoc. apply serialize_not_empty.
Qed.

(** The pairs [get] appends and the query it leaves. *)
Lemma append_query_spec (u : URL) (query : value) :
  url_base (append_query u query) = url_base u
  /\ url_fragment (append_query u query) = url_fragment u
  /\ url_params (append_query u query) = (url_params u ++ query_pairs query)%list
  /\ (query_pairs query <> [] ->
      url_query (append_query u query) =
        Some (Url.serialize (url_params u ++ query_pairs query))).
Proof.
  destruct (append_query_fold (Object_keys query) query u) as (Hb & Hf & Hp & Hq).
  unfold append_query, query_pairs. repeat split; try assumption.
  intros Hne. rewrite Hq.
  - now rewrite serialize_pairs_not_empty.
  - intros E. apply Hne. now rewrite E.
Qed.

(** Keys that are no array indices are enumerated as written. *)
Lemma own_props_written (l : list (string * value)) :
  NoDup (keys l) ->
  (forall k, In k (keys l) -> array_index k = None) ->
  own_props (VObj l) = l.
Proof.
  intros Hnd Hidx. simpl. unfold obj_literal.
  rewrite define_all_append; [reflexivity | assumption |].
  intros k Hk. split; [now apply Hidx | tauto].
Qed.

Lemma lookup_in_NoDup {V} (l : list (string * V)) (k : string) (v : V) :
  NoDup (keys l) -> In (k, v) l -> lookup k l = Some v.
Proof.
  induction l as [| [k0 v0] l IH]; simpl; intros Hnd Hin; [contradiction |].
  inversion Hnd as [| ? ? Hk0 Hnd']; subst.
  destruct Hin as [E | Hin].
  - injection E as -> ->. now rewrite String.eqb_refl.
  - destruct (String.eqb_spec k k0) as [-> | _]; [| now apply IH].
    exfalso. apply Hk0. now apply (in_map fst) in Hin.
Qed.

Lemma query_pairs_written (l : list (string * value)) :
  NoDup (keys l) ->
  (forall k, In k (keys l) -> array_index k = None) ->
  query_pairs (VObj l) = written_pairs l.
Proof.
  intros Hnd Hidx. unfold query_pairs, written_pairs, Object_keys, member.
  rewrite (own_props_written l Hnd Hidx). unfold keys. rewrite map_map.
  apply map_ext_in. intros [k v] Hin. simpl.
  now rewrite (lookup_in_NoDup l k v Hnd Hin).
Qed.

(** *** The order of [Object.keys] *)

Lemma array_index_some (k : string) (n : N) :
  array_index k = Some n -> string_of_N n = k.
Proof.
  unfold array_index. destruct (NilZero.uint_of_string k) as [u |]; [| discriminate].
  cbv zeta. destruct (String.eqb_spec (string_of_N (N.of_uint u)) k) as [E | _];
    [| discriminate].
  simpl. destruct (N.of_uint u <? 4294967295)%N; [| discriminate].
  now intros [= <-].
Qed.

(** Two keys that are the same array index are the same key. *)
Lemma array_index_inj (k k' : string) (n : N) :
  array_index k = Some n -> array_index k' = Some n -> k = k'.
Proof.
  intros H H'. apply array_index_some in H, H'. congruence.
Qed.

Lemma named_index (k : string) (i : N) : array_index k = Some i -> Spec.named k = false.
Proof. unfold Spec.named. now intros ->. Qed.

Lemma named_no_index (k : string) : array_index k = None -> Spec.named k = true.
Proof. unfold Spec.named. now intros ->. Qed.

(** A new key goes to its place: the order of the keys is kept. *)
Lemma ordered_create {V} (k : string) (v : V) (o : props V) :
  ~ In k (keys o) -> Spec.ordered (keys o) -> Spec.ordered (keys (create k v o)).
Proof.
  induction o as [| [k0 v0] o IH]; intros Hk Ho.
  - simpl. split; [intros k' [] | exact I].
  - cbn [keys map fst Spec.ordered] in Ho. destruct Ho as [H0 Ht].
    assert (Hne : k <> k0) by (intros ->; apply Hk; now left).
    assert (Hk' : ~ In k (keys o)) by (intros H; apply Hk; now right).
    specialize (IH Hk' Ht). fold (keys o) in H0, Ht.
    assert (Hin : forall k', In k' (keys (create k v o)) -> k' = k \/ In k' (keys o))
      by (intros k'; apply in_keys_create).
    cbn [create].
    destruct (array_index k) as [i |] eqn:Ei; destruct (array_index k0) as [j |] eqn:Ej;
      [destruct (N.ltb_spec i j) as [Hlt | Hge] | | |];
      cbn [keys map fst Spec.ordered];
      fold (keys o); fold (keys (create k v o)); rewrite ?Ei, ?Ej;
      (split; [| first [exact IH | split; assumption]]); intros k' Hk0.
    + destruct Hk0 as [<- | Hk0]; [now rewrite Ej |].
      specialize (H0 k' Hk0). destruct (array_index k'); [lia | exact I].
    + destruct (Hin k' Hk0) as [-> | Ho]; [| exact (H0 k' Ho)].
      rewrite Ei. assert (i <> j); [| lia].
      intros ->. apply Hne. now apply (array_index_inj k k0 j).
    + destruct Hk0 as [<- | Hk0]; [now rewrite Ej |].
      specialize (H0 k' Hk0). destruct (array_index k'); [contradiction | exact I].
    + destruct (Hin k' Hk0) as [-> | Ho]; [| exact (H0 k' Ho)].
      now rewrite Ei.
    + destruct (Hin k' Hk0) as [-> | Ho]; [| exact (H0 k' Ho)].
      now rewrite Ei.
Qed.

Lemma ordered_set_prop {V} (k : string) (v : V) (o : props V) :
  Spec.ordered (keys o) -> Spec.ordered (keys (set_prop k v o)).
Proof.
  intros Ho. unfold set_prop. destruct (has_key k o) eqn:H.
  - now rewrite keys_update.
  - apply ordered_create; [now apply has_key_false_iff | assumption].
Qed.

Lemma ordered_define_all {V} (l t : props V) :
  Spec.ordered (keys t) -> Spec.ordered (keys (define_all t l)).
Proof.
  unfold define_all. revert t.
  induction l as [| [k v] l IH]; simpl; intros t Ht; [assumption |].
  apply IH. now apply ordered_set_prop.
Qed.

(** [Object.keys] gives the array indices first, ascending, then the
    other keys. *)
Lemma ordered_own_props (v : value) : Spec.ordered (Object_keys v).
Proof.
  unfold Object_keys.
  destruct v; simpl; try exact I; apply ordered_define_all; exact I.
Qed.

Lemma has_key_true_iff {V} (k : string) (o : props V) :
  has_key k o = true <-> In k (keys o).
Proof.
  pose proof (has_key_false_iff k o) as H.
  destruct (has_key k o); split; intros H'; try reflexivity.
  - destruct (in_dec string_dec k (keys o)) as [Hin | Hout]; [assumption |].
    apply H in Hout. discriminate.
  - discriminate.
  - exfalso. now apply (proj1 H).
Qed.

Lemma in_keys_set_prop {V} (k : string) (v : V) (o : props V) (k' : string) :
  In k' (keys (set_prop k v o)) <-> k' = k \/ In k' (keys o).
Proof.
  unfold set_prop. destruct (has_key k o) eqn:H.
  - rewrite keys_update. apply has_key_true_iff in H.
    split; [tauto | intros [-> | Hin]; assumption].
  - apply in_keys_create.
Qed.

Lemma in_keys_define_all {V} (l t : props V) (k : string) :
  In k (keys (define_all t l)) <-> In k (keys t) \/ In k (keys l).
Proof.
  unfold define_all. revert t.
  induction l as [| [k0 v0] l IH]; simpl; intros t; [tauto |].
  rewrite IH, in_keys_set_prop. intuition congruence.
Qed.

(** The keys of an object literal are the keys written. *)
Lemma in_keys_obj_literal {V} (l : props V) (k : string) :
  In k (keys (obj_literal l)) <-> In k (keys l).
Proof. unfold obj_literal. rewrite in_keys_define_all. simpl. tauto. Qed.

Lemma obj_literal_snoc {V} (l : props V) (k : string) (v : V) :
  obj_literal (l ++ [(k, v)]) = set_prop k v (obj_literal l).
Proof. unfold obj_literal, define_all. now rewrite fold_left_app. Qed.

(** A key that is no array index is created last. *)
Lemma create_named {V} (k : string) (v : V) (o : props V) :
  array_index k = None -> create k v o = (o ++ [(k, v)])%list.
Proof.
  intros Hk. induction o as [| [k0 v0] o IH]; simpl; [reflexivity |].
  now rewrite Hk, IH.
Qed.

Lemma filter_named_create_index {V} (k : string) (v : V) (o : props V) (i : N) :
  array_index k = Some i ->
  filter Spec.named (keys (create k v o)) = filter Spec.named (keys o).
Proof.
  intros Hk. pose proof (named_index k i Hk) as Hn.
  induction o as [| [k0 v0] o IH]; simpl.
  - now rewrite Hn.
  - rewrite Hk. destruct (array_index k0) as [j |]; [destruct (i <? j)%N |]; simpl.
    + now rewrite Hn.
    + fold (keys (create k v o)). fold (keys o). now rewrite IH.
    + now rewrite Hn.
Qed.

Lemma firsts_snoc_out (ks : list string) (k : string) :
  ~ In k ks -> Spec.firsts (ks ++ [k]) = (Spec.firsts ks ++ [k])%list.
Proof.
  induction ks as [| a ks IH]; simpl; [reflexivity |].
  intros Hout. rewrite IH by tauto. rewrite filter_app. simpl.
  destruct (String.eqb_spec k a) as [-> | _]; [exfalso; apply Hout; now left |].
  reflexivity.
Qed.

Lemma firsts_snoc_in (ks : list string) (k : string) :
  In k ks -> Spec.firsts (ks ++ [k]) = Spec.firsts ks.
Proof.
  induction ks as [| a ks IH]; simpl; [contradiction |].
  intros Hin. f_equal.
  destruct (in_dec string_dec k ks) as [Hin' | Hout]; [now rewrite IH |].
  destruct Hin as [-> | Hin]; [| contradiction].
  rewrite (firsts_snoc_out ks k Hout), filter_app. simpl.
  rewrite String.eqb_refl. simpl. now rewrite app_nil_r.
Qed.

(** The keys that are no array indices come in the order in which they
    were first written. *)
Lemma named_keys_obj_literal {V} (l : props V) :
  filter Spec.named (keys (obj_literal l)) = Spec.firsts (filter Spec.named (keys l)).
Proof.
  induction l as [| [k v] l IH] using rev_ind; [reflexivity |].
  rewrite obj_literal_snoc. unfold keys at 2. rewrite map_app, filter_app.
  fold (keys l). cbn [map fst filter].
  unfold set_prop. destruct (has_key k (obj_literal l)) eqn:Hh.
  - rewrite keys_update, IH. apply has_key_true_iff in Hh. rewrite in_keys_obj_literal in Hh.
    destruct (Spec.named k) eqn:Hn.
    + rewrite firsts_snoc_in; [reflexivity |]. apply filter_In. now split.
    + now rewrite app_nil_r.
  - apply has_key_false_iff in Hh. rewrite in_keys_obj_literal in Hh.
    destruct (array_index k) as [i |] eqn:Ei.
    + rewrite (filter_named_create_index k v _ i Ei), IH, (named_index k i Ei).
      now rewrite app_nil_r.
    + rewrite (create_named k v _ Ei), (named_no_index k Ei).
      unfold keys at 1. rewrite map_app, filter_app. fold (keys (obj_literal l)).
      cbn [map fst filter]. rewrite (named_no_index k Ei), IH.
      rewrite firsts_snoc_out; [reflexivity |].
      intros Hin. apply filter_In in Hin. tauto.
Qed.

(** An object literal gives a key the value written for it last. *)
Lemma lookup_obj_literal_last {V} (l : props V) (k : string) :
  lookup k (obj_literal l) = Spec.last_written k l.
Proof.
  unfold Spec.last_written.
  induction l as [| [k0 v0] l IH] using rev_ind; [reflexivity |].
  rewrite obj_literal_snoc, lookup_set_prop, rev_app_distr. simpl.
  now rewrite IH.
Qed.

Lemma lookup_in {V} (k : string) (o : props V) (v : V) :
  lookup k o = Some v -> In (k, v) o.
Proof.
  induction o as [| [k0 v0] o IH]; simpl; [discriminate |].
  destruct (String.eqb_spec k k0) as [-> | _]; [intros [= ->]; now left | auto].
Qed.

Lemma safe_in (l : list (string * value)) (k : string) (v : value) :
  safe (VObj l) = true -> In (k, v) l -> safe v = true.
Proof.
  induction l as [| [k0 v0] l IH]; simpl; [contradiction |].
  intros H. apply Bool.andb_true_iff in H. destruct H as [H0 Hl].
  intros [[= -> ->] | Hin]; [assumption | now apply IH].
Qed.

Lemma string_props_values (s : string) (i : N) (k : string) (v : value) :
  In (k, v) (string_props i s) -> safe v = true.
Proof.
  revert i. induction s as [| c s IH]; simpl; intros i; [contradiction |].
  intros [[= _ <-] | Hin]; [reflexivity | now apply (IH (N.succ i))].
Qed.

(** The numbers a query holds are those written in it. *)
Lemma safe_member (q : value) (k : string) :
  safe q = true -> safe (member q k) = true.
Proof.
  intros Hq. unfold member. destruct (lookup k (own_props q)) as [v |] eqn:E; [| reflexivity].
  apply lookup_in in E. destruct q as [| | b | n | s | l | r]; simpl in E; try contradiction.
  - apply in_define_all in E. destruct E as [[] | E]. now apply (string_props_values s 0 k v).
  - apply in_define_all in E. destruct E as [[] | E]. now apply (safe_in l k v).
Qed.

(** The text [get] appends for a value. *)
Lemma to_string_coerced (v : value) : safe v = true -> Spec.coerced v (to_string v).
Proof.
  destruct v as [| | b | n | s | l | r]; simpl; try reflexivity.
  intros Hn. split; [assumption |].
    pose proof (parse_number_string_of_Z n EmptyString eq_refl) as H.
    now rewrite append_nil_r in H.
Qed.

Lemma keys_query_pairs (q : value) : map fst (query_pairs q) = Object_keys q.
Proof. unfold query_pairs. rewrite map_map. simpl. apply map_id. Qed.

Lemma in_query_pairs (q : value) (k x : string) :
  In (k, x) (query_pairs q) <->
  In k (Object_keys q) /\ x = to_string (member q k).
Proof.
  unfold query_pairs. rewrite in_map_iff. split.
  - intros (k' & [= <- <-] & Hin). now split.
  - intros [Hin ->]. now exists k.
Qed.

End Query.

(** C6, for a query whose second key is an array index: the entry
    written second comes first in the query string. *)
Lemma get_query_index_first :
  let query := [("b", VNum 1); ("1", VNum 2)] in
  map fst (fetch_calls (trace (snd (get Demo.env "items" (VObj query) VUndefined Demo.start))))
  = ["https://api.test/items?1=2&b=1"]
  /\ Url.serialize (written_pairs query) = "b=1&1=2".
Proof. split; reflexivity. Qed.

(** C6, amended: [get] appends one search parameter for each entry of
    the query object, the value coerced to a string, in the order in
    which [Object.keys] enumerates the object: array-index keys first,
    in ascending numeric order, then the other keys in the order of
    their insertion; each key once, with the value written for it last.
    For a mapping with distinct keys none of which is an array index
    that is the order of insertion, and [{id: 1, name: "r"}] yields the
    query string [id=1&name=r].  The numbers of the query are safe
    integers. *)
Theorem get_appends_query {World} (env : Env World) (uri : string) (query options : value)
  (st : State World) (u : URL) (auth : string) (st1 : State World) :
  new_URL env (createURL_string (root (this st)) uri) = Some u ->
  keys_defined (Js.default_arg query (VObj [])) = true ->
  getAuthorization env st = (Return auth, st1) ->
  Js.safe query = true ->
  let q := Js.default_arg query (VObj []) in
  exists u' init,
    fetch_calls (trace (snd (get env uri query options st))) =
      (fetch_calls (trace st) ++ [(Url.toString u', init)])%list
    /\ url_base u' = url_base u
    /\ url_fragment u' = url_fragment u
    /\ url_params u' = (url_params u ++ query_pairs q)%list
    /\ (query_pairs q <> [] ->
          url_query u' = Some (Url.serialize (url_params u ++ query_pairs q)))
    /\ (forall l, query = VObj l -> NoDup (Js.keys l) ->
          (forall k, In k (Js.keys l) -> Js.array_index k = None) ->
          query_pairs q = written_pairs l)
    /\ (query = VObj [("id", VNum 1); ("name", VStr "r")] -> url_params u = [] ->
          url_query u' = Some "id=1&name=r")
    /\ NoDup (map fst (query_pairs q))
    /\ Spec.ordered (map fst (query_pairs q))
    /\ (forall k x, In (k, x) (query_pairs q) -> Spec.coerced (Js.member q k) x)
    /\ (forall l, query = VObj l ->
          (forall k, In k (map fst (query_pairs q)) <-> In k (Js.keys l))
          /\ filter Spec.named (map fst (query_pairs q))
             = Spec.firsts (filter Spec.named (Js.keys l))
          /\ (forall k x, In (k, x) (query_pairs q) ->
                exists v, Spec.last_written k l = Some v /\ x = Js.to_string v)).
Proof.
  intros Hu Hd Hauth Hsafe q.
  assert (Hq' : Js.safe q = true) by (subst q; now destruct query).
  exists (append_query u q). eexists.
  split; [exact (run_helper_fetch_calls env (Get uri query options) st u auth st1 Hu Hd Hauth) |].
  destruct (append_query_spec u q) as (Hb & Hf & Hp & Hq).
  rewrite keys_query_pairs.
  repeat apply conj; try assumption.
  - intros l -> Hnd Hidx. now apply query_pairs_written.
  - intros Hquery Hparams. rewrite Hq; subst q; rewrite Hquery; [| discriminate].
    now rewrite Hparams.
  - apply NoDup_own_props.
  - apply ordered_own_props.
  - intros k x Hin. apply in_query_pairs in Hin. destruct Hin as [_ ->].
    apply to_string_coerced. now apply safe_member.
  - intros l Hl. subst q. rewrite Hl. simpl Js.default_arg. repeat apply conj.
    + intros k. apply in_keys_obj_literal.
    + apply named_keys_obj_literal.
    + intros k x Hin. apply in_query_pairs in Hin. destruct Hin as [Hin ->].
      unfold Js.member. simpl Js.own_props. rewrite lookup_obj_literal_last.
      unfold Js.Object_keys in Hin. simpl Js.own_props in Hin.
      destruct (Spec.last_written k l) as [v |] eqn:E; [now exists v |].
      rewrite <- lookup_obj_literal_last in E. apply lookup_none_iff in E. contradiction.
Qed.

(** C6 on the test client: [{id: 1, name: "r"}]. *)
Lemma get_appends_query_run :
  exists u' init,
    fetch_calls (trace (snd (get Demo.env "example"
                               (VObj [("id", VNum 1); ("name", VStr "r")]) VUndefined
                               Demo.start))) =
      [(Url.toString u', init)]
    /\ url_params u' = [("id", "1"); ("name", "r")]
    /\ url_query u' = Some "id=1&name=r"
    /\ Url.toString u' = "https://api.test/example?id=1&name=r".
Proof.
  destruct (get_appends_query Demo.env "example"
              (VObj [("id", VNum 1); ("name", VStr "r")]) VUndefined Demo.start
              {| url_base := "https://api.test/example"; url_query := None;
                 url_fragment := None; url_params := [] |}
              "Bearer 0" (snd (getAuthorization Demo.env Demo.start))
              eq_refl eq_refl eq_refl eq_refl)
    as (u' & init & Hc & Hb & Hf & Hp & _ & _ & Hq & _).
  exists u', init. repeat apply conj.
  - exact Hc.
  - exact Hp.
  - exact (Hq eq_refl eq_refl).
  - unfold Url.toString. rewrite Hb, Hf, (Hq eq_refl eq_refl). reflexivity.
Defined.

(** * More of the class *)

(** ** The pattern of [createURL], piece by piece *)

Section ReplaceMore.

Import Str.

Lemma starts_with_sep_app (pre : string) (c : ascii) (t : string) :
  is_sep c = false ->
  starts_with_sep (pre ++ String c t) = starts_with_sep pre.
Proof. intros Hc. destruct pre; simpl; [exact Hc | reflexivity]. Qed.

(** The scan of what stands before a character that is no separator
    does not depend on what follows it. *)
Lemma replace_from_app (b : bool) (pre : string) (c : ascii) (t : string) :
  is_sep c = false ->
  replace_from b (pre ++ String c t) = replace_from b pre ++ replace_from false (String c t).
Proof.
  intros Hc. revert b. induction pre as [| p pre IH]; intros b.
  - simpl. rewrite Hc, Bool.andb_false_r. reflexivity.
  - cbn [append replace_from]. rewrite (starts_with_sep_app pre c t Hc).
    destruct (b && is_sep p)%bool; [apply IH |].
    destruct (not_colon p && starts_with_sep pre)%bool; cbn [append]; now rewrite IH.
Qed.

Lemma all_seps_app (r r' : string) :
  all_seps (r ++ r') = (all_seps r && all_seps r')%bool.
Proof.
  induction r as [| c r IH]; simpl; [reflexivity |].
  now rewrite IH, Bool.andb_assoc.
Qed.

Lemma drop_seps_app (r t : string) :
  all_seps r = true -> drop_seps (r ++ t) = drop_seps t.
Proof.
  induction r as [| c r IH]; simpl; [reflexivity |].
  intros H. apply Bool.andb_true_iff in H as [Hc Hr]. rewrite Hc. now apply IH.
Qed.

(** A run after a character other than a colon: one forward slash. *)
Lemma replace_run (c d : ascii) (r t : string) :
  not_colon c = true -> all_seps (String d r) = true ->
  replace_slashes (String c (String d r ++ t))
  = String c (String "/" (replace_slashes (drop_seps t))).
Proof.
  intros Hc Hr. rewrite replace_slashes_match; [| assumption |].
  - now rewrite drop_seps_app.
  - simpl in *. now apply Bool.andb_true_iff in Hr.
Qed.

Lemma replace_no_seps (b : bool) (s : string) :
  no_seps s = true -> replace_from b s = s.
Proof.
  revert b. induction s as [| c t IH]; intros b; simpl; [reflexivity |].
  intros H. apply Bool.andb_true_iff in H as [Hc Ht].
  apply Bool.negb_true_iff in Hc. rewrite Hc, Bool.andb_false_r.
  assert (Hs : starts_with_sep t = false).
  { destruct t as [| d t']; [reflexivity |]. simpl in Ht |- *.
    apply Bool.andb_true_iff in Ht as [Hd _]. now apply Bool.negb_true_iff in Hd. }
  rewrite Hs, Bool.andb_false_r. now rewrite IH.
Qed.

Lemma starts_with_sep_replace_true (s : string) :
  starts_with_sep (replace_from true s) = false.
Proof.
  induction s as [| c t IH]; simpl; [reflexivity |].
  destruct (is_sep c) eqn:Hc; [exact IH |].
  destruct (not_colon c && starts_with_sep t)%bool; simpl; exact Hc.
Qed.

Lemma starts_with_sep_replace_false (s : string) :
  starts_with_sep (replace_from false s) = starts_with_sep s.
Proof.
  destruct s as [| c t]; simpl; [reflexivity |].
  destruct (not_colon c && starts_with_sep t)%bool; reflexivity.
Qed.

Lemma settled_replace_from (b : bool) (s : string) :
  settled (replace_from b s) = true.
Proof.
  revert b. induction s as [| c t IH]; intros b; simpl; [reflexivity |].
  destruct (b && is_sep c)%bool; [apply IH |].
  destruct (not_colon c && starts_with_sep t)%bool eqn:Hm.
  - apply Bool.andb_true_iff in Hm as [Hc _].
    cbn [settled starts_with_sep]. rewrite Hc. cbn.
    rewrite starts_with_sep_replace_true. cbn. apply IH.
  - cbn [settled]. rewrite starts_with_sep_replace_false, Hm. cbn. apply IH.
Qed.

Lemma drop_seps_id (s : string) : starts_with_sep s = false -> drop_seps s = s.
Proof. destruct s as [| c t]; simpl; [reflexivity | now intros ->]. Qed.

Lemma replace_settled (s : string) :
  settled s = true -> replace_from false s = s.
Proof.
  induction s as [| c t IH]; simpl; [reflexivity |].
  intros H. apply Bool.andb_true_iff in H as [Hhere Ht].
  specialize (IH Ht).
  destruct (not_colon c && starts_with_sep t)%bool eqn:Hm; [| now rewrite IH].
  destruct t as [| d t']; [discriminate |].
  apply Bool.andb_true_iff in Hhere as [Hd Hn].
  apply Ascii.eqb_eq in Hd. subst d. apply Bool.negb_true_iff in Hn.
  f_equal. cbn [replace_from]. cbn.
  rewrite replace_from_true, (drop_seps_id t' Hn).
  cbn [replace_from] in IH. rewrite Hn in IH. cbn in IH.
  congruence.
Qed.

Lemma text_of_replace_from (b : bool) (s : string) :
  text_of (replace_from b s) = text_of s.
Proof.
  revert b. induction s as [| c t IH]; intros b; simpl; [reflexivity |].
  destruct (is_sep c) eqn:Hc.
  - destruct b; simpl; [apply IH |].
    destruct (not_colon c && starts_with_sep t)%bool; simpl; rewrite Hc, ?IH; reflexivity.
  - rewrite Bool.andb_false_r.
    destruct (not_colon c && starts_with_sep t)%bool; simpl; rewrite Hc, ?IH; reflexivity.
Qed.

Lemma length_replace_from (s : string) :
  String.length (replace_from false s) <= String.length s
  /\ String.length (replace_from true s) + (if starts_with_sep s then 1 else 0)
     <= String.length s.
Proof.
  induction s as [| c t [IH0 IH1]]; simpl; [lia |].
  assert (H0 : String.length
                 (if (not_colon c && starts_with_sep t)%bool
                  then String c (String "/" (replace_from true t))
                  else String c (replace_from false t))
               <= S (String.length t)).
  { destruct (not_colon c && starts_with_sep t)%bool eqn:Hm; simpl; [| lia].
    apply Bool.andb_true_iff in Hm as [_ Hs]. rewrite Hs in IH1. lia. }
  split; [exact H0 |].
  destruct (is_sep c); [| lia].
  destruct (starts_with_sep t); lia.
Qed.

End ReplaceMore.

Section ReplaceFacts.

Import Str.

Lemma replace_long_run (c : ascii) (run t : string) :
  not_colon c = true -> all_seps run = true -> run <> EmptyString ->
  replace_slashes (String c (run ++ t))
  = String c (String "/" (replace_slashes (drop_seps t))).
Proof.
  intros Hc Hr Hne. destruct run as [| d r]; [contradiction |].
  now apply replace_run.
Qed.

Lemma text_of_app (a b : string) : text_of (a ++ b) = text_of a ++ text_of b.
Proof.
  induction a as [| c a IH]; simpl; [reflexivity |].
  destruct (is_sep c); simpl; now rewrite IH.
Qed.

End ReplaceFacts.

(** X1: slashes and backslashes at the end of the root or at the start
    of the path make no difference to the URL [createURL] builds, when
    the root's last other character is not a colon. *)
Theorem createURL_extra_slashes {World} (env : Env World)
  (r : string) (c : ascii) (seps seps' uri : string) (st st' : State World) :
  Str.is_sep c = false -> c <> ":"%char ->
  Str.all_seps seps = true -> Str.all_seps seps' = true ->
  root (this st) = r ++ String c seps ->
  root (this st') = r ++ String c EmptyString ->
  createURL_string (r ++ String c seps) (seps' ++ uri)
  = createURL_string (r ++ String c EmptyString) uri
  /\ fst (createURL env (seps' ++ uri) st) = fst (createURL env uri st').
Proof.
  intros Hsep Hcolon Hs Hs' Hroot Hroot'.
  assert (Hc : Str.not_colon c = true).
  { unfold Str.not_colon. apply Bool.negb_true_iff. now apply Ascii.eqb_neq. }
  assert (E : createURL_string (r ++ String c seps) (seps' ++ uri)
              = createURL_string (r ++ String c EmptyString) uri).
  { unfold createURL_string, Str.replace_slashes.
    rewrite !append_assoc. cbn [append].
    rewrite !(replace_from_app false r c _ Hsep). f_equal.
    change (Str.replace_slashes (String c (seps ++ String "/" (seps' ++ uri)))
            = Str.replace_slashes (String c (String "/" EmptyString ++ uri))).
    rewrite (replace_long_run c (String "/" EmptyString) uri Hc eq_refl) by discriminate.
    replace (seps ++ String "/" (seps' ++ uri))
      with ((seps ++ String "/" seps') ++ uri)
      by (rewrite append_assoc; reflexivity).
    rewrite (replace_long_run c (seps ++ String "/" seps') uri Hc).
    - reflexivity.
    - rewrite all_seps_app. simpl. now rewrite Hs, Hs'.
    - destruct seps; discriminate. }
  split; [exact E |].
  rewrite !createURL_run, Hroot, Hroot', E. reflexivity.
Qed.

(** X1 on the README's root with its slash and a path with two. *)
Lemma createURL_extra_slashes_run :
  createURL_string "https://myapi.com/" "//example" = createURL_string "https://myapi.com" "example"
  /\ fst (createURL Demo.env "//example" Demo.readme)
     = fst (createURL Demo.env "example"
              {| this := constructor "https://myapi.com" None; world := 0; trace := [] |}).
Proof.
  exact (createURL_extra_slashes Demo.env "https://myapi.co" "m" "/" "//" "example"
           Demo.readme
           {| this := constructor "https://myapi.com" None; world := 0; trace := [] |}
           eq_refl ltac:(discriminate) eq_refl eq_refl eq_refl eq_refl).
Defined.

(** X2: for a root that starts with a scheme and [://], the string
    [createURL] builds starts with the same scheme and [://]; what
    follows is the rest of the root, a slash and the path, without
    leading slashes, and normalised. *)
Theorem createURL_keeps_scheme (scheme rest uri : string) :
  Str.no_seps scheme = true ->
  createURL_string (scheme ++ "://" ++ rest) uri
  = scheme ++ "://" ++ Str.replace_slashes (Str.drop_seps (rest ++ "/" ++ uri)).
Proof.
  intros Hscheme. unfold createURL_string, Str.replace_slashes.
  rewrite !append_assoc. cbn [append].
  rewrite (replace_from_app false scheme ":" _ eq_refl).
  rewrite (replace_no_seps false scheme Hscheme). f_equal.
  cbn. now rewrite replace_from_true.
Qed.

(** X2 on an [https] root. *)
Lemma createURL_keeps_scheme_run :
  createURL_string "https://api.test" "a//b" = "https://api.test/a/b".
Proof.
  exact (createURL_keeps_scheme "https" "api.test" "a//b" eq_refl).
Defined.

(** X3: the string [createURL] builds is settled: the pattern applied to
    it once more changes nothing. *)
Theorem createURL_string_settled (root uri : string) :
  Str.replace_slashes (createURL_string root uri) = createURL_string root uri
  /\ Str.settled (createURL_string root uri) = true.
Proof.
  pose proof (settled_replace_from false (root ++ "/" ++ uri)) as H.
  split; [| exact H].
  now apply replace_settled.
Qed.

(** X4: [createURL] changes slashes and backslashes only: the other
    characters of the root and the path come out as they went in, in
    order, and the string built is never longer than root, slash and
    path together. *)
Theorem createURL_string_text (root uri : string) :
  Str.text_of (createURL_string root uri) = Str.text_of root ++ Str.text_of uri
  /\ String.length (createURL_string root uri)
     <= String.length root + 1 + String.length uri.
Proof.
  unfold createURL_string, Str.replace_slashes. split.
  - rewrite text_of_replace_from, !text_of_app. reflexivity.
  - pose proof (proj1 (length_replace_from (root ++ "/" ++ uri))) as H.
    rewrite length_append in H. cbn [append String.length] in H |- *. lia.
Qed.

(** ** Failures and the layers of the options *)

Section HelperInit.

Import Js.

Lemma request_headers_passed (h : helper) (c : RESTfulClient) (auth : string) :
  request_headers c auth (helper_passed h) = request_headers c auth (helper_options h).
Proof.
  unfold request_headers, helper_passed. now rewrite member_passed_headers.
Qed.

Lemma lookup_headers_helper_init (h : helper) (c : RESTfulClient) (auth : string) :
  lookup "headers" (request_init c auth (helper_passed h))
  = Some (VObj (request_headers c auth (helper_options h))).
Proof.
  unfold request_init. now rewrite lookup_set_prop_eq, request_headers_passed.
Qed.

Lemma lookup_helper_init (h : helper) (c : RESTfulClient) (auth : string) (k : string) :
  k <> "headers" ->
  lookup k (request_init c auth (helper_passed h))
  = if String.eqb k "method" then Some (VStr (verb h))
    else match lookup k (own_props (helper_options h)) with
         | Some v => Some v
         | None =>
             match lookup k (helper_base h) with
             | Some v => Some v
             | None => lookup k (own_props (fetchOptions c))
             end
         end.
Proof.
  intros Hk. rewrite lookup_request_init by assumption.
  unfold helper_passed. rewrite lookup_passed.
  destruct (String.eqb k "method"); [reflexivity |].
  now destruct (lookup k (own_props (helper_options h))).
Qed.

End HelperInit.

(** X5: when the string built for a helper is no valid URL, the helper
    throws a [TypeError] and calls nothing: no authorization resolver,
    no [fetch], no handler; the state is as before. *)
Theorem helper_invalid_url {World} (env : Env World) (h : helper) (st : State World) :
  new_URL env (createURL_string (root (this st)) (helper_uri h)) = None ->
  run_helper env h st = (Throw TypeError, st).
Proof. intros Hu. now rewrite run_helper_run, Hu. Qed.

(** X5 on a client with a relative root. *)
Lemma helper_invalid_url_run :
  let st := {| this := constructor "/api" None; world := 0; trace := [] |} in
  run_helper Demo.env (Post "items" (VObj [("id", VNum 2)]) VUndefined) st
  = (Throw TypeError, st).
Proof.
  exact (helper_invalid_url Demo.env (Post "items" (VObj [("id", VNum 2)]) VUndefined)
           {| this := constructor "/api" None; world := 0; trace := [] |} eq_refl).
Defined.

(** X6: [get] with [null] for the query always throws a [TypeError] and
    calls nothing: [Object.keys(null)] throws, if the [URL] constructor
    has not already. *)
Theorem get_null_query {World} (env : Env World) (uri : string) (options : value)
  (st : State World) :
  get env uri VNull options st = (Throw TypeError, st).
Proof.
  change (run_helper env (Get uri VNull options) st = (Throw TypeError, st)).
  rewrite run_helper_run. now destruct (new_URL env _).
Qed.

(** X7: [get] without a query, or with the empty object for one,
    requests the URL that [createURL] built, with nothing appended; it
    sends what [delete] sends for the same path and options, but for the
    method. *)
Theorem get_without_query {World} (env : Env World) (uri : string) (query options : value)
  (st : State World) (u : URL) (auth : string) (st1 : State World) :
  query = VUndefined \/ query = VObj [] ->
  new_URL env (createURL_string (root (this st)) uri) = Some u ->
  getAuthorization env st = (Return auth, st1) ->
  exists init_get init_delete,
    fetch_calls (trace (snd (get env uri query options st))) =
      (fetch_calls (trace st) ++ [(Url.toString u, init_get)])%list
    /\ fetch_calls (trace (snd (delete env uri options st))) =
         (fetch_calls (trace st) ++ [(Url.toString u, init_delete)])%list
    /\ Js.lookup "method" init_get = Some (VStr "GET")
    /\ Js.lookup "method" init_delete = Some (VStr "DELETE")
    /\ forall k, k <> "method" -> Js.lookup k init_get = Js.lookup k init_delete.
Proof.
  intros Hq Hu Hauth.
  assert (Hd : helper_defined (Get uri query options) = true)
    by (destruct Hq as [-> | ->]; reflexivity).
  assert (Hurl : helper_url (Get uri query options) u = u)
    by (destruct Hq as [-> | ->]; reflexivity).
  pose proof (run_helper_fetch_calls env (Get uri query options) st u auth st1 Hu Hd Hauth)
    as Hget.
  pose proof (run_helper_fetch_calls env (Delete uri options) st u auth st1 Hu eq_refl Hauth)
    as Hdel.
  rewrite Hurl in Hget.
  eexists. eexists. split; [exact Hget |]. split; [exact Hdel |].
  fold (helper_passed (Get uri query options)). fold (helper_passed (Delete uri options)).
  repeat apply conj.
  - now rewrite lookup_helper_init by discriminate.
  - now rewrite lookup_helper_init by discriminate.
  - intros k Hk. destruct (String.eqb_spec k "headers") as [-> | Hh].
    + now rewrite !lookup_headers_helper_init.
    + rewrite !lookup_helper_init by assumption.
      apply String.eqb_neq in Hk. now rewrite Hk.
Qed.

(** X7 on the test client. *)
Lemma get_without_query_run :
  exists init_get init_delete,
    fetch_calls (trace (snd (get Demo.env "items" VUndefined VUndefined Demo.start))) =
      [("https://api.test/items", init_get)]
    /\ fetch_calls (trace (snd (delete Demo.env "items" VUndefined Demo.start))) =
         [("https://api.test/items", init_delete)]
    /\ Js.lookup "method" init_get = Some (VStr "GET")
    /\ Js.lookup "method" init_delete = Some (VStr "DELETE")
    /\ forall k, k <> "method" -> Js.lookup k init_get = Js.lookup k init_delete.
Proof.
  exact (get_without_query Demo.env "items" VUndefined VUndefined Demo.start
           (mkURL "https://api.test/items" None None [])
           "Bearer 0" (snd (getAuthorization Demo.env Demo.start))
           (or_introl eq_refl) eq_refl eq_refl).
Defined.

(** X8: when the authorization resolver throws, [request] throws the
    same, after that one call: [fetch] is not called, and neither is the
    resolver nor the error handler. *)
Theorem request_authorization_throws {World} (env : Env World)
  (url : string + URL) (options : value) (st : State World) (f : closure) (e : exn) :
  authorization (this st) = AuthResolver f ->
  fst (call_authorization env f (this st, world st)) = Throw e ->
  fst (request env url options st) = Throw e
  /\ trace (snd (request env url options st)) = (trace st ++ [CallAuthorization f])%list.
Proof.
  intros Hf He.
  pose proof (call_result (CallAuthorization f) (call_authorization env f) st) as Hr.
  pose proof (call_trace (CallAuthorization f) (call_authorization env f) st) as Ht.
  rewrite request_run, getAuthorization_run, Hf.
  rewrite He in Hr.
  destruct (call _ _ st) as [[a | e'] st1]; simpl in *; [discriminate |].
  injection Hr as ->. split; [reflexivity | exact Ht].
Qed.

(** X8 in the environment whose token has expired. *)
Lemma request_authorization_throws_run :
  fst (request Demo.broken (inl "https://api.test/a") VUndefined Demo.start)
  = Throw (Thrown (VStr "expired"))
  /\ trace (snd (request Demo.broken (inl "https://api.test/a") VUndefined Demo.start))
     = [CallAuthorization (UserFn 0)].
Proof.
  exact (request_authorization_throws Demo.broken (inl "https://api.test/a") VUndefined
           Demo.start (UserFn 0) (Thrown (VStr "expired")) eq_refl eq_refl).
Defined.

(** X9: when [fetch] throws, [request] throws the same, and neither the
    resolver nor the error handler is called: that [fetch] call is the
    last event. *)
Theorem request_fetch_throws {World} (env : Env World)
  (url : string + URL) (options : value) (st : State World)
  (auth : string) (st1 : State World) (e : exn) :
  getAuthorization env st = (Return auth, st1) ->
  let init := request_init (this st) auth (Js.default_arg options (VObj [])) in
  fst (call_fetch env (url_toString url) init (this st1, world st1)) = Throw e ->
  fst (request env url options st) = Throw e
  /\ trace (snd (request env url options st))
     = (trace st1 ++ [CallFetch (url_toString url) init])%list.
Proof.
  intros Hauth init He.
  pose proof (call_result (CallFetch (url_toString url) init)
                (call_fetch env (url_toString url) init) st1) as Hr.
  pose proof (call_trace (CallFetch (url_toString url) init)
                (call_fetch env (url_toString url) init) st1) as Ht.
  rewrite request_run, Hauth. cbv zeta. fold init.
  rewrite He in Hr.
  destruct (call _ _ st1) as [[a | e'] st2]; simpl in *; [discriminate |].
  injection Hr as ->. split; [reflexivity | exact Ht].
Qed.

(** X9 in the environment whose network is down, for a client with a
    string authorization. *)
Lemma request_fetch_throws_run :
  fst (request Demo.broken (inl "https://api.test/a") VUndefined Demo.plain)
  = Throw (Thrown (VStr "network"))
  /\ trace (snd (request Demo.broken (inl "https://api.test/a") VUndefined Demo.plain))
     = [CallFetch "https://api.test/a"
          [("headers", VObj [("Content-Type", VStr "application/json");
                             ("Authorization", VStr EmptyString)])]].
Proof.
  exact (request_fetch_throws Demo.broken (inl "https://api.test/a") VUndefined
           Demo.plain EmptyString Demo.plain (Thrown (VStr "network")) eq_refl eq_refl).
Defined.

(** X10: when [fetch] returns a response, [request] makes exactly one
    more call, to the error handler for a status of 400 or more and to
    the resolver below, of the client as it is once [fetch] has
    returned; its outcome is the response itself (or what the error
    handler threw), or the resolver's outcome. *)
Theorem request_then_one_handler {World} (env : Env World)
  (url : string + URL) (options : value) (st : State World)
  (auth : string) (st1 : State World) (response : Response)
  (c2 : RESTfulClient) (w2 : World) :
  getAuthorization env st = (Return auth, st1) ->
  let init := request_init (this st) auth (Js.default_arg options (VObj [])) in
  call_fetch env (url_toString url) init (this st1, world st1) = (Return response, (c2, w2)) ->
  trace (snd (request env url options st)) =
    (trace st1
     ++ [CallFetch (url_toString url) init;
         if (400 <=? status response)%Z
         then CallErrorHandler (errorHandler c2) (status response) response
         else CallResolver (resolver c2) response])%list
  /\ fst (request env url options st) =
       if (400 <=? status response)%Z
       then match fst (call_errorHandler env (errorHandler c2) (status response) response
                         (c2, w2)) with
            | Return _ => Return (VResponse response)
            | Throw e => Throw e
            end
       else fst (call_resolver env (resolver c2) response (c2, w2)).
Proof.
  intros Hauth init Hfetch.
  set (st2 := {| this := c2; world := w2;
                 trace := (trace st1 ++ [CallFetch (url_toString url) init])%list |}).
  assert (Hcall : call (CallFetch (url_toString url) init)
                    (call_fetch env (url_toString url) init) st1
                  = (Return response, st2))
    by (unfold call; now rewrite Hfetch).
  rewrite request_run, Hauth. cbv zeta. fold init. rewrite Hcall.
  split.
  - rewrite resolve_trace. subst st2. cbn [trace this]. now rewrite <- app_assoc.
  - rewrite resolve_run. destruct (400 <=? status response)%Z.
    + pose proof (call_result
                    (CallErrorHandler (errorHandler c2) (status response) response)
                    (call_errorHandler env (errorHandler c2) (status response) response)
                    st2) as Hr.
      subst st2. cbn [this world] in Hr |- *. rewrite <- Hr.
      destruct (call (CallErrorHandler _ _ _) _ _) as [[a | e] st3]; reflexivity.
    + exact (call_result _ (call_resolver env (resolver c2) response) st2).
Qed.

(** X10 on the test client: a 404 and a 200. *)
Lemma request_then_one_handler_run :
  (let r := {| response_ref := 24; status := 404 |} in
   trace (snd (request Demo.env (inl "https://api.test/missing") VUndefined Demo.plain)) =
     [CallFetch "https://api.test/missing"
        [("headers", VObj [("Content-Type", VStr "application/json");
                           ("Authorization", VStr EmptyString)])];
      CallErrorHandler ConsoleError 404 r]
   /\ fst (request Demo.env (inl "https://api.test/missing") VUndefined Demo.plain)
      = Return (VResponse r))
  /\ (let r := {| response_ref := 18; status := 200 |} in
      trace (snd (request Demo.env (inl "https://api.test/a") VUndefined Demo.plain)) =
        [CallFetch "https://api.test/a"
           [("headers", VObj [("Content-Type", VStr "application/json");
                              ("Authorization", VStr EmptyString)])];
         CallResolver ResJson r]
      /\ fst (request Demo.env (inl "https://api.test/a") VUndefined Demo.plain)
         = Return (VStr "parsed")).
Proof.
  split.
  - exact (request_then_one_handler Demo.env (inl "https://api.test/missing") VUndefined
             Demo.plain EmptyString Demo.plain {| response_ref := 24; status := 404 |}
             (this Demo.plain) 0 eq_refl eq_refl).
  - exact (request_then_one_handler Demo.env (inl "https://api.test/a") VUndefined
             Demo.plain EmptyString Demo.plain {| response_ref := 18; status := 200 |}
             (this Demo.plain) 0 eq_refl eq_refl).
Defined.

(** X11: of the options other than [headers] that [request] hands to
    [fetch], each has the value the per-call options give it, else the
    value of the client's [fetchOptions]; and [headers] is always the
    object that [request] builds, whatever the two give for it: an
    object in which a name has the value the per-call options' headers
    give it, else [Content-Type] the client's content type and
    [Authorization] the resolved authorization, else the value of the
    default headers. *)
Theorem request_option_layers {World} (env : Env World)
  (url : string + URL) (options : value) (st : State World)
  (auth : string) (st1 : State World) :
  getAuthorization env st = (Return auth, st1) ->
  exists init,
    fetch_calls (trace (snd (request env url options st))) =
      (fetch_calls (trace st) ++ [(url_toString url, init)])%list
    /\ (forall k, k <> "headers" ->
          Js.lookup k init =
            match Js.lookup k (Js.own_props options) with
            | Some v => Some v
            | None => Js.lookup k (Js.own_props (fetchOptions (this st)))
            end)
    /\ exists h,
         Js.lookup "headers" init = Some (VObj h)
         /\ forall name,
              Js.lookup name (Js.own_props (VObj h)) =
                match Js.lookup name (Js.own_props (Js.member options "headers")) with
                | Some v => Some v
                | None =>
                    if String.eqb name "Content-Type"
                    then Some (VStr (contentType (this st)))
                    else if String.eqb name "Authorization" then Some (VStr auth)
                    else Js.lookup name
                           (Js.own_props (Js.member (fetchOptions (this st)) "headers"))
                end.
Proof.
  intros Hauth. eexists.
  split; [exact (request_fetch_calls env url options st auth st1 Hauth) |]. split.
  - intros k Hk. now rewrite lookup_request_init, own_props_default.
  - eexists. split; [unfold request_init; apply lookup_set_prop_eq |].
    intros name. cbn [Js.own_props].
    rewrite lookup_obj_literal by apply NoDup_request_headers.
    rewrite lookup_request_headers, member_default.
    destruct (Js.lookup name _); [reflexivity |].
    destruct (String.eqb_spec name "Content-Type") as [-> | _]; reflexivity.
Qed.

(** X11 on the test client with default transport options: a per-call
    [redirect] wins, a per-call [headers] that is no object is
    replaced by the headers of the client. *)
Lemma request_option_layers_run :
  let options := VObj [("redirect", VStr "error"); ("headers", VNum 7)] in
  exists init,
    fetch_calls (trace (snd (request Demo.env (inl "https://api.test/a") options Demo.layered))) =
      [("https://api.test/a", init)]
    /\ Js.lookup "redirect" init = Some (VStr "error")
    /\ exists h,
         Js.lookup "headers" init = Some (VObj h)
         /\ Js.lookup "Authorization" (Js.own_props (VObj h)) = Some (VStr "Bearer 0")
         /\ Js.lookup "Accept" (Js.own_props (VObj h)) = Some (VStr "text/html")
         /\ Js.lookup "Content-Type" (Js.own_props (VObj h))
            = Some (VStr (contentType (this Demo.layered))).
Proof.
  destruct (request_option_layers Demo.env (inl "https://api.test/a")
              (VObj [("redirect", VStr "error"); ("headers", VNum 7)])
              Demo.layered "Bearer 0" (snd (getAuthorization Demo.env Demo.layered)) eq_refl)
    as (init & Hcall & Hk & h & Hh & Hname).
  exists init. repeat apply conj.
  - exact Hcall.
  - exact (Hk "redirect" ltac:(discriminate)).
  - exists h. repeat apply conj.
    + exact Hh.
    + exact (Hname "Authorization").
    + exact (Hname "Accept").
    + exact (Hname "Content-Type").
Defined.

(** X12: the constructor does not take over [options.fetchOptions]: a
    request of a client as constructed sends the per-call options and
    the headers [Content-Type] and [Authorization] and nothing else,
    whatever [fetchOptions] the constructor was given. *)
Theorem constructed_client_sends_no_defaults {World} (env : Env World)
  (url : string + URL) (options : value) (st : State World)
  (root : string) (o : option Options.ResterOptions) (auth : string) (st1 : State World) :
  this st = constructor root o ->
  getAuthorization env st = (Return auth, st1) ->
  exists init,
    fetch_calls (trace (snd (request env url options st))) =
      (fetch_calls (trace st) ++ [(url_toString url, init)])%list
    /\ (forall k, k <> "headers" ->
          Js.lookup k init = Js.lookup k (Js.own_props options))
    /\ (forall name,
          sent_header init name =
            match Js.lookup name (Js.own_props (Js.member options "headers")) with
            | Some v => Some v
            | None =>
                if String.eqb name "Content-Type" then Some (VStr (contentType (this st)))
                else if String.eqb name "Authorization" then Some (VStr auth)
                else None
            end).
Proof.
  intros Hthis Hauth. eexists.
  split; [exact (request_fetch_calls env url options st auth st1 Hauth) |]. split.
  - intros k Hk. rewrite lookup_request_init, own_props_default by assumption.
    rewrite Hthis. simpl. now destruct (Js.lookup k (Js.own_props options)).
  - intros name.
    rewrite sent_header_request_init, lookup_request_headers, member_default.
    destruct (Js.lookup name _); [reflexivity |].
    rewrite Hthis. simpl.
    destruct (String.eqb_spec name "Content-Type") as [-> | _]; reflexivity.
Qed.

(** X12 on the README's client, constructed with [redirect: 'follow']. *)
Lemma constructed_client_sends_no_defaults_run :
  exists init,
    fetch_calls (trace (snd (request Demo.env (inl "https://myapi.com/a") VUndefined
                               Demo.readme))) =
      [("https://myapi.com/a", init)]
    /\ Js.lookup "redirect" init = None.
Proof.
  destruct (constructed_client_sends_no_defaults Demo.env (inl "https://myapi.com/a")
              VUndefined Demo.readme "https://myapi.com/"
              (Some {| Options.authorization :=
                         Some (AuthString "Bearer jwttoken.string.forauth");
                       Options.contentType := Some "application/json";
                       Options.resolver := Some (UserFn 1);
                       Options.errorHandler := None;
                       Options.fetchOptions := Some (VObj [("redirect", VStr "follow")]) |})
              "Bearer jwttoken.string.forauth" Demo.readme eq_refl eq_refl)
    as (init & Hcall & Hk & _).
  exists init. split; [exact Hcall |].
  exact (Hk "redirect" ltac:(discriminate)).
Defined.

(** X13: for a body that is no string, [post] and [put] send the same
    request but for the method: the same URL, the same body, headers and
    other options. *)
Theorem post_put_agree {World} (env : Env World) (uri : string) (body options : value)
  (st : State World) (u : URL) (auth : string) (st1 : State World) :
  (forall s, body <> VStr s) ->
  new_URL env (createURL_string (root (this st)) uri) = Some u ->
  getAuthorization env st = (Return auth, st1) ->
  exists init_post init_put,
    fetch_calls (trace (snd (post env uri body options st))) =
      (fetch_calls (trace st) ++ [(Url.toString u, init_post)])%list
    /\ fetch_calls (trace (snd (put env uri body options st))) =
         (fetch_calls (trace st) ++ [(Url.toString u, init_put)])%list
    /\ forall k, k <> "method" -> Js.lookup k init_post = Js.lookup k init_put.
Proof.
  intros Hbody Hu Hauth.
  assert (Hbase : helper_base (Post uri body options) = helper_base (Put uri body options)).
  { simpl. unfold post_body. destruct body; try reflexivity.
    exfalso. now apply (Hbody s). }
  pose proof (run_helper_fetch_calls env (Post uri body options) st u auth st1 Hu eq_refl Hauth)
    as Hpost.
  pose proof (run_helper_fetch_calls env (Put uri body options) st u auth st1 Hu eq_refl Hauth)
    as Hput.
  eexists. eexists. split; [exact Hpost |]. split; [exact Hput |].
  fold (helper_passed (Post uri body options)). fold (helper_passed (Put uri body options)).
  intros k Hk. destruct (String.eqb_spec k "headers") as [-> | Hh].
  - now rewrite !lookup_headers_helper_init.
  - rewrite !lookup_helper_init by assumption.
    apply String.eqb_neq in Hk. now rewrite Hk, Hbase.
Qed.

(** X13 on the test client, for an object. *)
Lemma post_put_agree_run :
  exists init_post init_put,
    fetch_calls (trace (snd (post Demo.env "items" (VObj [("id", VNum 2)]) VUndefined
                               Demo.start))) =
      [("https://api.test/items", init_post)]
    /\ fetch_calls (trace (snd (put Demo.env "items" (VObj [("id", VNum 2)]) VUndefined
                                  Demo.start))) =
         [("https://api.test/items", init_put)]
    /\ forall k, k <> "method" -> Js.lookup k init_post = Js.lookup k init_put.
Proof.
  refine (post_put_agree Demo.env "items" (VObj [("id", VNum 2)]) VUndefined Demo.start
            (mkURL "https://api.test/items" None None [])
            "Bearer 0" (snd (getAuthorization Demo.env Demo.start)) _ eq_refl eq_refl).
  discriminate.
Defined.

(** X14: of the options other than [method] and [headers] that a verb
    helper hands to [fetch], each has the value the per-call options
    give it, else the helper's own (the body of [post] and [put]; [get]
    and [delete] have none), else the value of the client's
    [fetchOptions]: so [post] and [put] never send a body from
    [fetchOptions], and [get] and [delete] send a body only when the
    per-call options or [fetchOptions] hold one. *)
Theorem helper_option_layers {World} (env : Env World) (h : helper)
  (st : State World) (u : URL) (auth : string) (st1 : State World) :
  new_URL env (createURL_string (root (this st)) (helper_uri h)) = Some u ->
  helper_defined h = true ->
  getAuthorization env st = (Return auth, st1) ->
  exists init,
    fetch_calls (trace (snd (run_helper env h st))) =
      (fetch_calls (trace st) ++ [(Url.toString (helper_url h u), init)])%list
    /\ (forall k, k <> "method" -> k <> "headers" ->
          Js.lookup k init =
            match Js.lookup k (Js.own_props (helper_options h)) with
            | Some v => Some v
            | None =>
                match Js.lookup k (helper_base h) with
                | Some v => Some v
                | None => Js.lookup k (Js.own_props (fetchOptions (this st)))
                end
            end)
    /\ (forall k, Js.lookup k (helper_base h) =
          match h with
          | Post _ body _ =>
              if String.eqb k "body"
              then Some (match body with VStr s => VStr s | _ => Js.JSON_stringify body end)
              else None
          | Put _ body _ => if String.eqb k "body" then Some (Js.JSON_stringify body) else None
          | _ => None
          end).
Proof.
  intros Hu Hd Hauth. eexists.
  split; [exact (run_helper_fetch_calls env h st u auth st1 Hu Hd Hauth) |].
  fold (helper_passed h). split.
  - intros k Hm Hh. rewrite lookup_helper_init by assumption.
    apply String.eqb_neq in Hm. now rewrite Hm.
  - intros k. destruct h; simpl; try reflexivity.
    unfold Js.set_prop. simpl. destruct (String.eqb k "body"); [| reflexivity].
    now destruct body.
Qed.

(** X14 on a client whose [fetchOptions] hold a body and a cache
    directive: [post] sends its own body and the client's directive. *)
Lemma helper_option_layers_run :
  let st := {| this := mkClient "https://api.test" (AuthString EmptyString) "application/json"
                         (VObj [("body", VStr "default"); ("cache", VStr "no-cache")])
                         ResJson ConsoleError;
               world := 0; trace := [] |} in
  exists init,
    fetch_calls (trace (snd (post Demo.env "items" (VStr "mine") VUndefined st))) =
      [("https://api.test/items", init)]
    /\ Js.lookup "body" init = Some (VStr "mine")
    /\ Js.lookup "cache" init = Some (VStr "no-cache").
Proof.
  intros st.
  destruct (helper_option_layers Demo.env (Post "items" (VStr "mine") VUndefined) st
              (mkURL "https://api.test/items" None None []) EmptyString st
              eq_refl eq_refl eq_refl)
    as (init & Hcall & Hk & _).
  exists init. repeat apply conj.
  - exact Hcall.
  - exact (Hk "body" ltac:(discriminate) ltac:(discriminate)).
  - exact (Hk "cache" ltac:(discriminate) ltac:(discriminate)).
Defined.

(** X15: for a client as constructed, [resolve] calls the error handler
    and the resolver the constructor was given, and where it was given
    none, [console.error] and the resolver that parses JSON. *)
Theorem resolve_constructed_handlers {World} (env : Env World)
  (response : Response) (st : State World)
  (root : string) (o : option Options.ResterOptions) :
  this st = constructor root o ->
  trace (snd (resolve env response st)) =
    (trace st
     ++ [if (400 <=? status response)%Z
         then CallErrorHandler
                match o with
                | Some r => match Options.errorHandler r with Some f => f | None => ConsoleError end
                | None => ConsoleError
                end
                (status response) response
         else CallResolver
                match o with
                | Some r => match Options.resolver r with Some f => f | None => ResJson end
                | None => ResJson
                end
                response])%list.
Proof.
  intros Hthis. rewrite resolve_trace, Hthis.
  destruct o as [r |]; simpl; [| reflexivity].
  destruct (Options.errorHandler r), (Options.resolver r); reflexivity.
Qed.

(** X15 on the README's client, which names a resolver and no error
    handler. *)
Lemma resolve_constructed_handlers_run :
  trace (snd (resolve Demo.env {| response_ref := 1; status := 500 |} Demo.readme))
  = [CallErrorHandler ConsoleError 500 {| response_ref := 1; status := 500 |}]
  /\ trace (snd (resolve Demo.env {| response_ref := 2; status := 204 |} Demo.readme))
     = [CallResolver (UserFn 1) {| response_ref := 2; status := 204 |}].
Proof.
  pose (o := Some {| Options.authorization :=
                       Some (AuthString "Bearer jwttoken.string.forauth");
                     Options.contentType := Some "application/json";
                     Options.resolver := Some (UserFn 1);
                     Options.errorHandler := None;
                     Options.fetchOptions := Some (VObj [("redirect", VStr "follow")]) |}).
  split.
  - exact (resolve_constructed_handlers Demo.env {| response_ref := 1; status := 500 |}
             Demo.readme "https://myapi.com/" o eq_refl).
  - exact (resolve_constructed_handlers Demo.env {| response_ref := 2; status := 204 |}
             Demo.readme "https://myapi.com/" o eq_refl).
Defined.

